(** * django-boundaryservice: slug assignment, filter translation and
      response shaping

    A shallow embedding of [boundaryservice/models.py] (the slug logic of
    [SluggedModel]) and of [boundaryservice/resources.py] (the hooks of
    [BoundaryResource]), followed by the properties proved about them.

    Conventions.
    - A Python [str] is a [string], a sequence of characters with code points
      below 256; Python's unbounded [int] is [N] where the code only counts
      upwards and [Z] where a subtraction may go negative.
    - A Python [dict] with string keys is a [gmap string _].
    - A call that may raise returns an [outcome]: [Ok v], [Raise e], or
      [Diverged] for a [while] loop that has not finished within the steps
      granted to it. *)

From Stdlib Require Import ZArith Lia Ascii.
From stdpp Require Import base option list strings gmap pretty.

Local Open Scope Z_scope.
Local Open Scope nat_scope.

(** ** Python primitives used by the two modules *)

Module Py.

(** The exception classes that occur in the embedded code. *)
Inductive exn : Type :=
  | ValueError
  | KeyError (key : string)
  | AttributeError
  | DoesNotExist
  | MultipleObjectsReturned
  | InvalidFilterError.

Inductive outcome (A : Type) : Type :=
  | Ok (a : A)
  | Raise (e : exn)
  | Diverged.
Global Arguments Ok {A} a.
Global Arguments Raise {A} e.
Global Arguments Diverged {A}.

Definition bind {A B} (m : outcome A) (k : A -> outcome B) : outcome B :=
  match m with
  | Ok a => k a
  | Raise e => Raise e
  | Diverged => Diverged
  end.

(** [for x in xs: x = f(x)], where any iteration may raise. *)
Fixpoint for_each {A B} (f : A -> outcome B) (xs : list A)
  : outcome (list B) :=
  match xs with
  | [] => Ok []
  | x :: xs' =>
      bind (f x) (fun y =>
      bind (for_each f xs') (fun ys => Ok (y :: ys)))
  end.

(** [for x in xs: acc = f(acc, x)], where any iteration may raise. *)
Fixpoint for_fold {A S} (f : S -> A -> outcome S) (acc : S) (xs : list A)
  : outcome S :=
  match xs with
  | [] => Ok acc
  | x :: xs' => bind (f acc x) (fun acc' => for_fold f acc' xs')
  end.

(** [len(s)] *)
Definition len (s : string) : nat := String.length s.

(** [s[:n]] for [0 <= n]. *)
Fixpoint take (n : nat) (s : string) : string :=
  match n, s with
  | S n', String c s' => String c (take n' s')
  | _, _ => ""
  end.

(** [s[n:]] for [0 <= n]. *)
Fixpoint drop (n : nat) (s : string) : string :=
  match n, s with
  | S n', String _ s' => drop n' s'
  | _, _ => s
  end.

(** [s[:i]] for an arbitrary integer [i]: a negative bound counts from the
    end of the string, and every bound is clipped to [0 .. len(s)]. *)
Definition slice_to (s : string) (i : Z) : string :=
  let n := Z.of_nat (len s) in
  let stop := if (i <? 0)%Z then Z.max 0 (n + i) else Z.min i n in
  take (Z.to_nat stop) s.

(** [s.split(sep)] for a one-character separator. *)
Fixpoint split (sep : ascii) (s : string) : list string :=
  match s with
  | "" => [""]
  | String c s' =>
      if decide (c = sep) then "" :: split sep s'
      else match split sep s' with
           | w :: ws => String c w :: ws
           | [] => [String c ""]
           end
  end.

(** [str.isspace] on the code points below 256. *)
Definition isspace (c : ascii) : bool :=
  let n := nat_of_ascii c in
  ((9 <=? n) && (n <=? 13)) || ((28 <=? n) && (n <=? 32))
  || (n =? 133) || (n =? 160).

Fixpoint lstrip (s : string) : string :=
  match s with
  | String c s' => if isspace c then lstrip s' else s
  | "" => ""
  end.

Fixpoint rstrip (s : string) : string :=
  match s with
  | "" => ""
  | String c s' =>
      match rstrip s' with
      | "" => if isspace c then "" else String c ""
      | r => String c r
      end
  end.

(** [s.strip()] *)
Definition strip (s : string) : string := rstrip (lstrip s).

(** The character class [[0-9]]. *)
Definition isdigit (c : ascii) : bool :=
  let n := nat_of_ascii c in (48 <=? n) && (n <=? 57).

Definition digit_value (c : ascii) : N := N.of_nat (nat_of_ascii c - 48).

(** The longest prefix matched by [[0-9]*]. *)
Fixpoint leading_digits (s : string) : string :=
  match s with
  | String c s' => if isdigit c then String c (leading_digits s') else ""
  | "" => ""
  end.

(** [re.match('([0-9]+)', s)]: [None] when no digit leads [s], otherwise
    the match object, represented by its group 1. *)
Definition re_match_digits (s : string) : option string :=
  match leading_digits s with
  | "" => None
  | d => Some d
  end.

(** [m.group(1)] on the result of [re.match]: attribute access on [None]
    raises [AttributeError]. *)
Definition group1 (m : option string) : outcome string :=
  match m with
  | Some d => Ok d
  | None => Raise AttributeError
  end.

Fixpoint int_digits (acc : N) (s : string) : outcome N :=
  match s with
  | "" => Ok acc
  | String c s' =>
      if isdigit c then int_digits (10 * acc + digit_value c)%N s'
      else Raise ValueError
  end.

(** [int(s)] for an unsigned decimal literal.  The interpreter's limit on
    the length of the literal ([sys.int_max_str_digits], 4300 digits by
    default from CPython 3.10.7 on, beyond which [int] raises [ValueError])
    is not modelled: [int] stands for the conversion of literals within
    that limit. *)
Definition int (s : string) : outcome N :=
  match s with
  | "" => Raise ValueError
  | _ => int_digits 0%N s
  end.

(** ['%s' % n] for a non-negative integer. *)
Definition str_of_int (n : N) : string := pretty n.

(** Every character of [s] satisfies [p]. *)
Fixpoint all_chars (p : ascii -> bool) (s : string) : bool :=
  match s with
  | "" => true
  | String c s' => p c && all_chars p s'
  end.

(** [s] does not begin with a character satisfying [p]. *)
Definition not_headed_by (p : ascii -> bool) (s : string) : bool :=
  match s with
  | "" => true
  | String c _ => negb (p c)
  end.

(** [c] is not the character [sep]. *)
Definition is_not (sep c : ascii) : bool := bool_decide (c <> sep).

(** [sep.join(xs)] *)
Fixpoint join (sep : string) (xs : list string) : string :=
  match xs with
  | [] => ""
  | x :: xs' =>
      match xs' with
      | [] => x
      | _ => x +:+ sep +:+ join sep xs'
      end
  end.

(** [s.count(c)] for a character [c]. *)
Fixpoint count_char (c : ascii) (s : string) : nat :=
  match s with
  | "" => 0
  | String c' s' => (if decide (c' = c) then 1 else 0) + count_char c s'
  end.

(** [del d[k]] *)
Definition del {V} (k : string) (d : gmap string V)
  : outcome (gmap string V) :=
  match d !! k with
  | Some _ => Ok (delete k d)
  | None => Raise (KeyError k)
  end.

(** *** The part of [re] that the URL patterns use

    A pattern is built from literal characters, [.], a repeated character
    class [[...]+], named groups [(?P<name>...)], concatenation and [$].
    Matching is the backtracking search of [re]: a repeated class takes as
    many characters as it can and gives them back one at a time while the
    rest of the pattern fails.  [.] is any character but a newline; [$] is
    the end of the string, or the place before a newline that ends it. *)

Inductive regex : Type :=
  | Eps
  | Lit (c : ascii)
  | Dot
  | ClassPlus (p : ascii -> bool)
  | Named (name : string) (r : regex)
  | Cat (r1 r2 : regex)
  | Dollar.

Definition newline : ascii := "010"%char.

(** [[...]+] against [s], with [k] the match of the rest of the pattern. *)
Fixpoint class_plus {R} (p : ascii -> bool) (s : string)
    (k : string -> option R) : option R :=
  match s with
  | String c s' =>
      if p c then
        match class_plus p s' k with
        | Some r => Some r
        | None => k s'
        end
      else None
  | "" => None
  end.

(** The match of [r] at the head of [s]; [groups] holds the named groups
    closed so far and [k] is the match of the rest of the pattern. *)
Fixpoint exec (r : regex) (s : string) (groups : gmap string string)
    (k : string -> gmap string string -> option (gmap string string))
  : option (gmap string string) :=
  match r with
  | Eps => k s groups
  | Lit c =>
      match s with
      | String c' s' => if decide (c' = c) then k s' groups else None
      | "" => None
      end
  | Dot =>
      match s with
      | String c' s' => if decide (c' = newline) then None else k s' groups
      | "" => None
      end
  | ClassPlus p => class_plus p s (fun s' => k s' groups)
  | Named name r' =>
      exec r' s groups (fun s' groups' =>
        k s' (<[name := take (len s - len s') s]> groups'))
  | Cat r1 r2 =>
      exec r1 s groups (fun s' groups' => exec r2 s' groups' k)
  | Dollar =>
      if bool_decide (s = "" \/ s = String newline "")
      then k s groups else None
  end.

(** What a successful match of [r] says: [r] matches the part of [s] in
    front of [s'], and turns the groups [groups] into [groups']. *)
Fixpoint matched (r : regex) (s s' : string)
    (groups groups' : gmap string string) : Prop :=
  match r with
  | Eps => s' = s /\ groups' = groups
  | Lit c => s = String c s' /\ groups' = groups
  | Dot => (exists c, c <> newline /\ s = String c s') /\ groups' = groups
  | ClassPlus p =>
      (exists w, w <> "" /\ all_chars p w = true /\ s = w +:+ s')
      /\ groups' = groups
  | Named name r' =>
      exists groups1,
        matched r' s s' groups groups1
        /\ groups' = <[name := take (len s - len s') s]> groups1
  | Cat r1 r2 =>
      exists s1 groups1,
        matched r1 s s1 groups groups1 /\ matched r2 s1 s' groups1 groups'
  | Dollar =>
      (s = "" \/ s = String newline "") /\ s' = s /\ groups' = groups
  end.

(** [re.search] for a pattern that begins with [^]: only a match at the
    start of the string counts; the result is [groupdict()]. *)
Definition search_from_start (r : regex) (s : string)
  : option (gmap string string) :=
  exec r s ∅ (fun _ groups => Some groups).

(** The literal characters of [w], one after the other. *)
Fixpoint lits (w : string) : regex :=
  match w with
  | "" => Eps
  | String c w' => Cat (Lit c) (lits w')
  end.

(** [\w] on the code points below 256: letters, digits and other numeric
    characters, and the underscore. *)
Definition isword (c : ascii) : bool :=
  let n := nat_of_ascii c in
  ((48 <=? n) && (n <=? 57)) || ((65 <=? n) && (n <=? 90))
  || ((97 <=? n) && (n <=? 122)) || (n =? 95)
  || (n =? 170) || (n =? 178) || (n =? 179) || (n =? 181) || (n =? 185)
  || (n =? 186) || ((188 <=? n) && (n <=? 190))
  || ((192 <=? n) && (n <=? 214)) || ((216 <=? n) && (n <=? 246))
  || ((248 <=? n) && (n <=? 255)).

End Py.

Import Py.

Notation "'let!' x ':=' m 'in' k" := (Py.bind m (fun x => k))
  (at level 10, x name, m at level 100, k at level 200).

(** ** [boundaryservice/models.py]: [SluggedModel] *)

Module Models.

(** What the slug code reads from a model instance.  [get_slug_text] is the
    value returned by the method of that name, [None] when the instance has
    no such callable attribute; [has_unicode] and [has_str] are the two
    [hasattr] tests and [str_self] is [str(self)].  [payload] stands for
    the remaining columns. *)
Record Entity : Type := {
  pk : option nat;
  slug : string;
  get_slug_text : option string;
  has_unicode : bool;
  has_str : bool;
  str_self : string;
  payload : string
}.

Definition set_slug (e : Entity) (s : string) : Entity :=
  {| pk := pk e; slug := s; get_slug_text := get_slug_text e;
     has_unicode := has_unicode e; has_str := has_str e;
     str_self := str_self e; payload := payload e |}.

Definition set_pk (e : Entity) (k : nat) : Entity :=
  {| pk := Some k; slug := slug e; get_slug_text := get_slug_text e;
     has_unicode := has_unicode e; has_str := has_str e;
     str_self := str_self e; payload := payload e |}.

(** A stored row of the model's table, and the table. *)
Record Row : Type := { row_pk : nat; row_slug : string; row_payload : string }.

Abbreviation Table := (list Row).

(** [queryset.filter(slug=s).count()] over
    [self.__class__._default_manager.all()]. *)
Definition count_slug (queryset : Table) (s : string) : nat :=
  length (filter (fun r => row_slug r = s) queryset).

(** The slugs present in a table. *)
Definition slugs (table : Table) : list string := map row_slug table.

(** The counters [from, from + 1, ..., from + n - 1]. *)
Definition counters (from : N) (n : nat) : list N :=
  map (fun i => (from + N.of_nat i)%N) (seq 0 n).

(** The series [base], [base-2], [base-3], ... of [n] slugs. *)
Definition slug_series (base : string) (n : nat) : list string :=
  match n with
  | 0 => []
  | S n' =>
      base :: map (fun k => base +:+ "-" +:+ str_of_int k) (counters 2 n')
  end.

(** The slug text chosen by the [if / elif / elif / else] chain of
    [unique_slug]; [None] is the [else: return] branch. *)
Definition slug_txt (e : Entity) : option string :=
  match get_slug_text e with
  | Some t => Some t
  | None =>
      if has_unicode e then Some (str_self e)
      else if has_str e then Some (str_self e)
      else None
  end.

(** ['-%s' % next] *)
Definition suffix (next : N) : string := "-" +:+ str_of_int next.

(** One pass through the body of the [while] loop: the slug it builds from
    [original_slug] and the counter [next]. *)
Definition suffixed (original_slug : string) (next : N) : string :=
  let slug := original_slug in
  let end_ := suffix next in
  let slug :=
    if decide (256 < len slug + len end_)
    then slice_to slug (200 - Z.of_nat (len end_))
    else slug in
  slug +:+ end_.

(** [while not slug or queryset.filter(slug=slug).count(): ...], run for at
    most [steps] tests of its condition. *)
Fixpoint while_taken (steps : nat) (queryset : Table)
    (original_slug slug : string) (next : N) : outcome string :=
  match steps with
  | 0 => Diverged
  | S steps' =>
      if bool_decide (slug = "") || negb (count_slug queryset slug =? 0)
      then while_taken steps' queryset original_slug
             (suffixed original_slug next) (next + 1)%N
      else Ok slug
  end.

Section WithSlugify.

(** [django.template.defaultfilters.slugify] *)
Variable slugify : string -> string.

(** [SluggedModel.unique_slug].  The loop is granted [length queryset + 2]
    tests of its condition, which is enough for every table (lemma
    [while_total] below). *)
Definition unique_slug (queryset : Table) (self : Entity)
  : outcome Entity :=
  if bool_decide (slug self = "") then
    match slug_txt self with
    | None => Ok self
    | Some txt =>
        let original_slug := slugify txt in
        if count_slug queryset original_slug =? 0
        then Ok (set_slug self original_slug)
        else
          let! slug := while_taken (length queryset + 2) queryset
                         original_slug "" 2%N in
          Ok (set_slug self slug)
    end
  else Ok self.

(** [super(SluggedModel, self).save()]: Django's [Model.save] writes the
    instance's columns to the row with its primary key, or to a new row
    with the next free key when it has none. *)
Definition next_pk (table : Table) : nat :=
  S (foldr Nat.max 0 (map row_pk table)).

Definition to_row (k : nat) (e : Entity) : Row :=
  {| row_pk := k; row_slug := slug e; row_payload := payload e |}.

Definition model_save (table : Table) (e : Entity) : Table * Entity :=
  match pk e with
  | None =>
      let k := next_pk table in (table ++ [to_row k e], set_pk e k)
  | Some k =>
      if existsb (fun r => row_pk r =? k) table
      then (map (fun r => if row_pk r =? k then to_row k e else r) table, e)
      else (table ++ [to_row k e], e)
  end.

(** [SluggedModel.save] *)
Definition save (table : Table) (self : Entity)
  : outcome (Table * Entity) :=
  let! self := unique_slug table self in
  if bool_decide (slug self = "") then Raise ValueError
  else Ok (model_save table self).

(** Saving a sequence of instances one after the other. *)
Fixpoint save_all (table : Table) (es : list Entity)
  : outcome (Table * list Entity) :=
  match es with
  | [] => Ok (table, [])
  | e :: es' =>
      let! r := save table e in
      let! r' := save_all (fst r) es' in
      Ok (fst r', snd r :: snd r')
  end.

(** A new instance (no primary key, no slug yet) whose slug text
    normalises to [base]. *)
Definition new_with_base (base : string) (e : Entity) : Prop :=
  pk e = None /\ slug e = "" /\ slugify <$> slug_txt e = Some base.

(** The tables that [save] can build, starting from the empty one. *)
Inductive reachable : Table -> Prop :=
  | reachable_empty : reachable []
  | reachable_save table e table' e' :
      reachable table ->
      save table e = Ok (table', e') ->
      reachable table'.

End WithSlugify.

End Models.

(** ** [boundaryservice/resources.py]: [BoundaryResource] *)

Module Resources.

(** [request]: only its query dictionary [request.GET] is read. *)
Record Request : Type := { GET : gmap string string }.

(** [request.GET.get(key, default)] *)
Definition GET_get (request : Request) (key default_ : string) : string :=
  default default_ (GET request !! key).

(** [try: ... except: pass], where the guarded statement updates [x]. *)
Definition try_except_pass {A} (x : A) (attempt : outcome A) : outcome A :=
  match attempt with
  | Ok x' => Ok x'
  | Raise _ => Ok x
  | Diverged => Diverged
  end.

Section Shaping.

(** The type of a serialised field value. *)
Context {V : Type}.

(** A tastypie bundle: only [bundle.data] is touched. *)
Record Bundle : Type := { data : gmap string V }.

(** The list payload: [data['objects']] and the rest ([data['meta']]). *)
Record ListData : Type := { meta : gmap string V; objects : list Bundle }.

(** [del obj.data[key]] *)
Definition del_data (key : string) (obj : Bundle) : outcome Bundle :=
  let! d := del key (data obj) in Ok {| data := d |}.

(** [BoundaryResource.alter_list_data_to_serialize] *)
Definition alter_list_data_to_serialize (request : Request)
    (data_ : ListData) : outcome ListData :=
  let shape_type := GET_get request "shape_type" "simple" in
  let! objs :=
    for_each (fun obj =>
      let! obj :=
        if bool_decide (shape_type <> "simple")
        then del_data "simple_shape" obj else Ok obj in
      if bool_decide (shape_type <> "full")
      then del_data "shape" obj else Ok obj)
      (objects data_) in
  let excludes := split "," (strip (GET_get request "excludes" "")) in
  let! objs :=
    match excludes with
    | [] => Ok objs
    | _ =>
        for_fold (fun objs exclude =>
          for_each (fun obj =>
            try_except_pass obj (del_data exclude obj)) objs)
          objs excludes
    end in
  Ok {| meta := meta data_; objects := objs |}.

(** [BoundaryResource.alter_detail_data_to_serialize] *)
Definition alter_detail_data_to_serialize (request : Request)
    (bundle : Bundle) : outcome Bundle :=
  let shape_type := GET_get request "shape_type" "simple" in
  let! bundle :=
    if bool_decide (shape_type <> "simple")
    then del_data "simple_shape" bundle else Ok bundle in
  if bool_decide (shape_type <> "full")
  then del_data "shape" bundle else Ok bundle.

(** The names listed by the [excludes] parameter of a request. *)
Definition excludes_of (request : Request) : list string :=
  split "," (strip (GET_get request "excludes" "")).

(** A bundle as serialised from a [Boundary]: both geometry fields are
    among its data. *)
Definition has_key (key : string) (obj : Bundle) : bool :=
  match data obj !! key with Some _ => true | None => false end.

Definition has_shapes (obj : Bundle) : bool :=
  has_key "shape" obj && has_key "simple_shape" obj.

(** A bundle trimmed to the detail level [shape_type]: [simple_shape]
    stays only for ["simple"], [shape] only for ["full"]. *)
Definition trimmed (shape_type : string) (obj : Bundle) : Bundle :=
  {| data :=
       let d := if decide (shape_type = "simple") then data obj
                else delete "simple_shape" (data obj) in
       if decide (shape_type = "full") then d else delete "shape" d |}.

(** A bundle's data with the fields named in [keys] dropped. *)
Definition drop_keys (keys : list string) (obj : Bundle) : Bundle :=
  {| data := foldl (fun d k => delete k d) (data obj) keys |}.

End Shaping.

Global Arguments Bundle : clear implicits.
Global Arguments ListData : clear implicits.

Section Filters.

(** Geometries and distance measures are values of the spatial backend. *)
Context {Geom Dist : Type}.

(** The values placed in the ORM filter dictionary. *)
Inductive OrmValue : Type :=
  | Inherited (v : string)
  | SlugIn (slugs : list string)
  | Wkt (wkt_pt : string)
  | WithinDistance (wkt_pt : string) (d : Dist)
  | Shape (g : Geom).

(** [super(BoundaryResource, self).build_filters(filters)], tastypie's
    translation of the field filters. *)
Variable super_build_filters :
  gmap string string -> outcome (gmap string OrmValue).

(** [django.contrib.gis.measure.D] applied to the single keyword argument
    [unit = numeral]. *)
Variable D : string -> N -> outcome Dist.

(** The stored boundaries, as (slug, shape) pairs. *)
Variable boundaries : list (string * Geom).

(** [Boundary.objects.get(slug=slug)].shape *)
Definition objects_get_shape (slug : string) : outcome Geom :=
  match filter (fun b => fst b = slug) boundaries with
  | [] => Raise DoesNotExist
  | [b] => Ok (snd b)
  | _ => Raise MultipleObjectsReturned
  end.

(** ['POINT(%s %s)' % (lon, lat)] *)
Definition wkt_point (lon lat : string) : string :=
  "POINT(" +:+ lon +:+ " " +:+ lat +:+ ")".

(** [BoundaryResource.build_filters] *)
Definition build_filters (filters : option (gmap string string))
  : outcome (gmap string OrmValue) :=
  let filters := default (∅ : gmap string string) filters in
  let! orm_filters := super_build_filters filters in
  let! orm_filters :=
    match filters !! "sets" with
    | Some v =>
        let sets := split "," v in
        Ok (<["set__slug__in" := SlugIn sets]> orm_filters)
    | None => Ok orm_filters
    end in
  let! orm_filters :=
    match filters !! "contains" with
    | Some v =>
        match split "," v with
        | [lat; lon] =>
            let wkt_pt := wkt_point lon lat in
            Ok (<["shape__contains" := Wkt wkt_pt]> orm_filters)
        | _ => Raise ValueError
        end
    | None => Ok orm_filters
    end in
  let! orm_filters :=
    match filters !! "near" with
    | Some v =>
        match split "," v with
        | [lat; lon; range] =>
            let wkt_pt := wkt_point lon lat in
            let! numeral := group1 (re_match_digits range) in
            let unit := drop (len numeral) range in
            let! numeral := int numeral in
            let! d := D unit numeral in
            Ok (<["shape__distance_lte" := WithinDistance wkt_pt d]>
                  orm_filters)
        | _ => Raise ValueError
        end
    | None => Ok orm_filters
    end in
  match filters !! "intersects" with
  | Some slug =>
      let! shape := objects_get_shape slug in
      Ok (<["shape__intersects" := Shape shape]> orm_filters)
  | None => Ok orm_filters
  end.

End Filters.

End Resources.

(** ** [boundaryservice/urls.py] *)

Module Urls.

(** The character class [[\w\d_.-]]. *)
Definition slug_char (c : ascii) : bool :=
  isword c || isdigit c
  || bool_decide (c = "_"%char) || bool_decide (c = "."%char)
  || bool_decide (c = "-"%char).

(** The pattern of the first entry of [urlpatterns], after its [^]. *)
Definition redirect_pattern : regex :=
  Cat (Named "api_name" (Cat (Lit "1") (Cat Dot (Lit "0"))))
 (Cat (Lit "/")
 (Cat (Named "resource_name" (lits "boundary-set"))
 (Cat (Lit "/")
 (Cat (Named "slug" (ClassPlus slug_char))
 (Cat (Lit "/")
 (Cat (Named "external_id" (ClassPlus slug_char))
  Dollar)))))).

(** Where a request path is sent: to [views.external_id_redirects] with the
    named groups as keyword arguments, or on to the URLs of the API. *)
Inductive Target : Type :=
  | ExternalIdRedirects (kwargs : gmap string string)
  | ApiUrls (path : string).

(** [urlpatterns], tried in order: the redirect pattern first; the empty
    pattern of the second entry matches every path and passes all of it to
    [v1_api.urls]. *)
Definition resolve (path : string) : Target :=
  match search_from_start redirect_pattern path with
  | Some kwargs => ExternalIdRedirects kwargs
  | None => ApiUrls path
  end.

End Urls.

(** ** Sample data *)

Module Samples.

Import Models Resources.

(** Text that is already a slug is left as it is by [slugify]; the
    examples use such text only. *)
Definition slugify_plain (s : string) : string := s.

(** A new instance with the given slug text. *)
Definition fresh (text : string) : Entity :=
  {| pk := None; slug := ""; get_slug_text := Some text;
     has_unicode := true; has_str := true; str_self := text;
     payload := "" |}.

(** A stored instance that already has a slug. *)
Definition austin : Entity :=
  {| pk := Some 1; slug := "austin"; get_slug_text := None;
     has_unicode := true; has_str := true;
     str_self := "Austin Community Area"; payload := "renamed" |}.

Definition austin_table : Table :=
  [{| row_pk := 1; row_slug := "austin"; row_payload := "" |}].

Fixpoint replicate_char (n : nat) (c : ascii) : string :=
  match n with
  | 0 => ""
  | S n' => String c (replicate_char n' c)
  end.

(** A slug of 255 characters, and a table that already holds it. *)
Definition long_slug : string := replicate_char 255 "a".

Definition long_table : Table :=
  [{| row_pk := 1; row_slug := long_slug; row_payload := "" |}].

(** A serialised boundary. *)
Definition ward : Bundle string :=
  {| data := list_to_map
       [("name", "Ward 5"); ("kind", "Ward");
        ("shape", "MULTIPOLYGON(full)");
        ("simple_shape", "MULTIPOLYGON(simple)")] |}.

Definition ward_list : ListData string :=
  {| meta := ∅; objects := [ward] |}.

Definition query (params : list (string * string)) : Request :=
  {| GET := list_to_map params |}.

(** The base class finds no field filter among the geographic ones. *)
Definition no_field_filters (filters : gmap string string)
  : outcome (gmap string (@OrmValue string (string * N))) := Ok ∅.

(** A measure recorded as its unit and magnitude. *)
Definition measure (unit : string) (numeral : N) : outcome (string * N) :=
  Ok (unit, numeral).

(** A new instance that brings its own slug. *)
Definition preset (s : string) : Entity :=
  {| pk := None; slug := s; get_slug_text := None;
     has_unicode := true; has_str := true; str_self := s; payload := "" |}.

(** The stored instance of [austin_table] with its slug cleared. *)
Definition austin_cleared : Entity :=
  {| pk := Some 1; slug := ""; get_slug_text := Some "austin";
     has_unicode := true; has_str := true; str_self := "austin";
     payload := "" |}.

(** A bundle from which [shape] has been left out. *)
Definition ward_without_shape : Bundle string :=
  {| data := list_to_map
       [("name", "Ward 5"); ("simple_shape", "MULTIPOLYGON(simple)")] |}.

(** Stored boundaries, as slug and shape. *)
Definition stored_boundaries : list (string * string) :=
  [("austin-community-area", "MULTIPOLYGON(austin)");
   ("ward-5", "MULTIPOLYGON(ward 5)")].

End Samples.

(** * Properties *)

(** ** Strings and decimal numerals *)

Section PyFacts.

Local Arguments String.append !_ _ /.

Lemma len_app (a b : string) : len (a +:+ b) = len a + len b.
Proof. induction a as [|c a IH]; simpl; [done|]. by rewrite IH. Qed.

Lemma app_assoc_str (a b c : string) : (a +:+ b) +:+ c = a +:+ (b +:+ c).
Proof. induction a as [|x a IH]; simpl; [done|]. by rewrite IH. Qed.

Lemma app_empty_r (a : string) : a +:+ "" = a.
Proof. induction a as [|x a IH]; simpl; [done|]. by rewrite IH. Qed.

Lemma len_take (n : nat) (s : string) : len (take n s) = Nat.min n (len s).
Proof.
  revert s; induction n as [|n IH]; intros [|c s]; simpl; try done.
  by rewrite IH.
Qed.

Lemma drop_app (a b : string) : drop (len a) (a +:+ b) = b.
Proof. induction a as [|c a IH]; simpl; [by destruct b|done]. Qed.

Lemma all_chars_app p (a b : string) :
  all_chars p (a +:+ b) = all_chars p a && all_chars p b.
Proof.
  induction a as [|c a IH]; simpl; [done|].
  by rewrite IH, andb_assoc.
Qed.

(** A non-negative slice bound keeps that many leading characters. *)
Lemma slice_to_nonneg (s : string) (i : Z) :
  (0 <= i)%Z -> slice_to s i = take (Z.to_nat i) s.
Proof.
  intros Hi. unfold slice_to.
  destruct (i <? 0)%Z eqn:E; [lia|].
  destruct (Z.le_ge_cases i (Z.of_nat (len s))) as [H|H].
  - by rewrite Z.min_l.
  - rewrite Z.min_r by done. rewrite Nat2Z.id.
    clear E. assert (len s <= Z.to_nat i) as Hle by lia.
    revert Hle. generalize (Z.to_nat i). clear.
    induction s as [|c s IH]; intros [|n] Hn; simpl in *; try done; try lia.
    f_equal. apply IH. lia.
Qed.

(** *** The decimal numeral of a number *)

(** Induction along the digit-by-digit construction of a numeral. *)
Lemma pretty_go_ind (P : N -> string -> string -> Prop) :
  (forall s, P 0%N s s) ->
  (forall x s r, (0 < x)%N ->
     P (x `div` 10)%N (String (pretty_N_char (x `mod` 10)) s) r ->
     P x s r) ->
  forall x s, P x s (pretty_N_go x s).
Proof.
  intros H0 Hstep x.
  induction (N.lt_wf_0 x) as [x _ IH]; intros s.
  destruct (decide (x = 0%N)) as [->|Hx].
  - rewrite pretty_N_go_0. apply H0.
  - rewrite pretty_N_go_step by lia.
    apply Hstep; [lia|]. apply IH. apply N.div_lt; lia.
Qed.

Lemma isdigit_pretty_char (d : N) : isdigit (pretty_N_char d) = true.
Proof. unfold pretty_N_char. by repeat case_match. Qed.

Lemma digit_value_pretty_char (d : N) :
  (d < 10)%N -> digit_value (pretty_N_char d) = d.
Proof.
  intros Hd.
  assert (d = 0 \/ d = 1 \/ d = 2 \/ d = 3 \/ d = 4 \/ d = 5
          \/ d = 6 \/ d = 7 \/ d = 8 \/ d = 9)%N as Hcases by lia.
  repeat (destruct Hcases as [->|Hcases]; [done|]). by subst.
Qed.

Lemma str_of_int_unfold (n : N) :
  str_of_int n = if decide (n = 0%N) then "0" else pretty_N_go n "".
Proof. done. Qed.

Lemma len_pretty_go_ge (x : N) (s : string) :
  len s <= len (pretty_N_go x s).
Proof.
  apply (pretty_go_ind (fun _ s r => len s <= len r)); [done|].
  simpl. intros; lia.
Qed.

Lemma len_pretty_go_pos (x : N) (s : string) :
  (0 < x)%N -> len s < len (pretty_N_go x s).
Proof.
  intros Hx. rewrite pretty_N_go_step by done.
  eapply Nat.lt_le_trans; [|apply len_pretty_go_ge]. simpl. lia.
Qed.

(** A numeral is never empty. *)
Lemma len_str_of_int_pos (n : N) : 1 <= len (str_of_int n).
Proof.
  rewrite str_of_int_unfold. case_decide; [done|].
  pose proof (len_pretty_go_pos n "") as H'. simpl in H'. lia.
Qed.

(** A numeral consists of digits only. *)
Lemma all_digits_str_of_int (n : N) :
  all_chars isdigit (str_of_int n) = true.
Proof.
  rewrite str_of_int_unfold. case_decide; [done|].
  apply (pretty_go_ind (fun _ s r =>
           all_chars isdigit s = true -> all_chars isdigit r = true));
    [done| |done].
  intros x s r _ IH Hs. apply IH. simpl.
  by rewrite isdigit_pretty_char, Hs.
Qed.

(** A number below [10 ^ k] has at most [k] digits. *)
Lemma len_str_of_int_bound (n : N) (k : nat) :
  0 < k -> (n < 10 ^ N.of_nat k)%N -> len (str_of_int n) <= k.
Proof.
  intros Hk Hn. rewrite str_of_int_unfold. case_decide; [simpl; lia|].
  enough (forall x s r, r = pretty_N_go x s ->
            forall j, (x < 10 ^ N.of_nat j)%N -> len r <= len s + j) as Hgo.
  { by apply (Hgo n "" _ eq_refl k). }
  clear. intros x s r ->.
  apply (pretty_go_ind (fun x s r =>
           forall j, (x < 10 ^ N.of_nat j)%N -> len r <= len s + j)).
  - intros; lia.
  - clear. intros x s r Hx IH j Hj.
    destruct j as [|j]; [simpl in Hj; lia|].
    etrans; [apply (IH j)|simpl; lia].
    rewrite Nat2N.inj_succ, N.pow_succ_r' in Hj.
    apply N.Div0.div_lt_upper_bound. lia.
Qed.

(** Larger numbers do not have shorter numerals. *)
Lemma len_str_of_int_mono (m n : N) :
  (m <= n)%N -> len (str_of_int m) <= len (str_of_int n).
Proof.
  intros Hmn.
  assert (forall y x s s', (x <= y)%N -> len s = len s' ->
            len (pretty_N_go x s) <= len (pretty_N_go y s')) as Hgo.
  { clear. intros y. induction (N.lt_wf_0 y) as [y _ IH].
    intros x s s' Hxy Hlen.
    destruct (decide (x = 0%N)) as [->|Hx].
    - rewrite pretty_N_go_0, Hlen. apply len_pretty_go_ge.
    - rewrite (pretty_N_go_step x), (pretty_N_go_step y) by lia.
      apply IH.
      + apply N.div_lt; lia.
      + by apply N.Div0.div_le_mono.
      + simpl. by rewrite Hlen. }
  rewrite !str_of_int_unfold. repeat case_decide; subst.
  - done.
  - pose proof (len_pretty_go_pos n "") as H'. simpl in *. lia.
  - lia.
  - by apply Hgo.
Qed.

Lemma int_digits_last (p : string) (c : ascii) (acc v : N) :
  isdigit c = true ->
  (forall t, int_digits acc (p +:+ t) = int_digits v t) ->
  forall t, int_digits acc ((p +:+ String c "") +:+ t)
            = int_digits (10 * v + digit_value c)%N t.
Proof.
  intros Hc Hp t. rewrite app_assoc_str. simpl.
  rewrite Hp. simpl. by rewrite Hc.
Qed.

(** [int] reads back the number a numeral was printed from. *)
Lemma int_str_of_int (n : N) : int (str_of_int n) = Ok n.
Proof.
  assert (forall x s, exists p,
            pretty_N_go x s = p +:+ s /\
            forall acc t, int_digits acc (p +:+ t)
              = int_digits (acc * 10 ^ N.of_nat (len p) + x)%N t) as Hgo.
  { clear. apply (pretty_go_ind (fun x s r => exists p,
             r = p +:+ s /\
             forall acc t, int_digits acc (p +:+ t)
               = int_digits (acc * 10 ^ N.of_nat (len p) + x)%N t)).
    - intros s. exists "". split; [done|]. intros acc t. simpl.
      f_equal. lia.
    - intros x s r Hx (p & -> & Hp).
      exists (p +:+ String (pretty_N_char (x `mod` 10)) "").
      split; [by rewrite app_assoc_str|].
      intros acc t.
      rewrite (int_digits_last p _ acc _ (isdigit_pretty_char _) (Hp acc)).
      f_equal. rewrite len_app. simpl.
      rewrite digit_value_pretty_char by (apply N.mod_lt; lia).
      replace (N.of_nat (len p + 1)) with (N.succ (N.of_nat (len p))) by lia.
      rewrite N.pow_succ_r'.
      pose proof (N.div_mod x 10). lia. }
  rewrite str_of_int_unfold. case_decide as Hn; [by subst|].
  destruct (Hgo n "") as (p & Hp & Hval).
  rewrite Hp, app_empty_r.
  assert (p <> "") as Hne.
  { intros ->. pose proof (len_pretty_go_pos n "") as Hl.
    rewrite Hp in Hl. simpl in Hl. lia. }
  unfold int. destruct p as [|c p]; [done|].
  specialize (Hval 0%N ""). rewrite app_empty_r in Hval.
  rewrite Hval. simpl. f_equal; lia.
Qed.

(** *** Digits, separators and splitting *)

Lemma leading_digits_app (d u : string) :
  all_chars isdigit d = true -> not_headed_by isdigit u = true ->
  leading_digits (d +:+ u) = d.
Proof.
  intros Hd Hu. induction d as [|c d IH]; simpl in *.
  - destruct u as [|c u]; [done|]. simpl in *.
    by destruct (isdigit c).
  - apply andb_prop in Hd as [-> Hd]. by rewrite IH.
Qed.

(** A string without a leading digit has no digit match. *)
Lemma re_match_digits_none (s : string) :
  not_headed_by isdigit s = true -> re_match_digits s = None.
Proof.
  unfold re_match_digits. destruct s as [|c s]; [done|]. simpl.
  by destruct (isdigit c).
Qed.

Lemma split_no_sep (sep : ascii) (a : string) :
  all_chars (is_not sep) a = true -> split sep a = [a].
Proof.
  induction a as [|c a IH]; simpl; [done|].
  intros [Hc Ha]%andb_prop. apply bool_decide_eq_true in Hc.
  rewrite decide_False by done. by rewrite IH.
Qed.

Lemma split_app_sep (sep : ascii) (a b : string) :
  all_chars (is_not sep) a = true ->
  split sep (a +:+ String sep b) = a :: split sep b.
Proof.
  induction a as [|c a IH]; simpl.
  - intros _. by rewrite decide_True.
  - intros [Hc Ha]%andb_prop. apply bool_decide_eq_true in Hc.
    rewrite decide_False by done. by rewrite IH.
Qed.

Lemma all_chars_impl (p q : ascii -> bool) (s : string) :
  (forall c, p c = true -> q c = true) ->
  all_chars p s = true -> all_chars q s = true.
Proof.
  intros Hpq. induction s as [|c s IH]; simpl; [done|].
  intros [Hc Hs]%andb_prop. by rewrite (Hpq _ Hc), IH.
Qed.

(** Two strings that end in a dash followed by digits and are equal have
    the same digits. *)
Lemma dash_digits_inj (p1 p2 d1 d2 : string) :
  all_chars isdigit d1 = true -> all_chars isdigit d2 = true ->
  p1 +:+ "-" +:+ d1 = p2 +:+ "-" +:+ d2 -> d1 = d2.
Proof.
  intros H1 H2. revert p2.
  assert (forall p d d', all_chars isdigit d = true ->
            d <> String "-" p +:+ "-" +:+ d') as Hno.
  { intros p d d' Hd ->. simpl in Hd. discriminate. }
  assert (forall p d d', all_chars isdigit d = true ->
            d <> p +:+ "-" +:+ d' \/ p = "") as Hno'.
  { intros p d d' Hd. destruct p as [|c p]; [by right|left].
    intros ->. rewrite all_chars_app in Hd. simpl in Hd.
    apply andb_prop in Hd as [_ Hd]. discriminate. }
  induction p1 as [|c p1 IH]; intros [|c2 p2]; simpl; intros Heq.
  - by simplify_eq.
  - injection Heq as <- Heq.
    destruct (Hno' p2 d1 d2 H1) as [Hc| ->]; [done|]. simpl in Heq. subst.
    simpl in H1. discriminate.
  - injection Heq as -> Heq.
    destruct (Hno' p1 d2 d1 H2) as [Hc| ->]; [by symmetry in Heq|].
    simpl in Heq. subst. simpl in H2. discriminate.
  - injection Heq as _ Heq. by apply (IH p2).
Qed.

(** *** The primitives at work *)

Example split_commas :
  split "," "41.88,-87.63,5mi" = ["41.88"; "-87.63"; "5mi"].
Proof. reflexivity. Qed.

Example split_empty : split "," "" = [""].
Proof. reflexivity. Qed.

Example strip_spaces : strip "  name, kind " = "name, kind".
Proof. reflexivity. Qed.

Example slice_to_negative : slice_to "abcdef" (-2) = "abcd".
Proof. reflexivity. Qed.

Example match_digits :
  re_match_digits "5mi" = Some "5" /\ re_match_digits "mi" = None.
Proof. split; reflexivity. Qed.

Example int_leading_zero : int "007" = Ok 7%N.
Proof. reflexivity. Qed.

End PyFacts.

(** ** The slug loop *)

Section SlugLoop.

Import Models.
Local Arguments String.append !_ _ /.

Implicit Types (table : Table) (base : string) (next : N).

Lemma count_slug_zero table s : count_slug table s = 0 <-> s ∉ slugs table.
Proof.
  unfold count_slug, slugs. induction table as [|r table IH].
  - split; [intros _; apply not_elem_of_nil|done].
  - rewrite filter_cons. cbn [map]. rewrite not_elem_of_cons.
    destruct (decide (row_slug r = s)) as [->|Hne].
    + split; [done|]. by intros [? _].
    + rewrite IH. split; [by intros ?; split|by intros [_ ?]].
Qed.

Lemma count_slug_nonzero table s :
  count_slug table s <> 0 <-> s ∈ slugs table.
Proof.
  rewrite count_slug_zero. split; [apply dec_stable|by intros ? ?].
Qed.

Lemma suffixed_unfold base next :
  exists pre, suffixed base next = pre +:+ "-" +:+ str_of_int next.
Proof. unfold suffixed, suffix. case_decide; eauto. Qed.

(** Within the ceiling the loop body appends the counter to the whole
    original slug. *)
Lemma suffixed_fits base next :
  len base + len (suffix next) <= 256 ->
  suffixed base next = base +:+ "-" +:+ str_of_int next.
Proof. intros Hfit. unfold suffixed. case_decide; [lia|done]. Qed.

Lemma suffixed_nonempty base next : suffixed base next <> "".
Proof.
  destruct (suffixed_unfold base next) as [pre ->].
  intros Heq%(f_equal len). rewrite len_app in Heq. simpl in Heq. lia.
Qed.

(** Different counters give different slugs, truncated or not. *)
Lemma suffixed_inj base : Inj (=) (=) (suffixed base).
Proof.
  intros j k Heq.
  destruct (suffixed_unfold base j) as [pj Hj].
  destruct (suffixed_unfold base k) as [pk Hk].
  rewrite Hj, Hk in Heq.
  apply dash_digits_inj in Heq; auto using all_digits_str_of_int.
  by apply (inj pretty) in Heq.
Qed.

(** The loop walks the counters upwards and stops at the first slug that
    is not in the table. *)
Lemma while_search table base (m : nat) :
  forall steps next,
    (forall i, i < m -> suffixed base (next + N.of_nat i) ∈ slugs table) ->
    suffixed base (next + N.of_nat m) ∉ slugs table ->
    m < steps ->
    while_taken steps table base (suffixed base next) (next + 1)
    = Ok (suffixed base (next + N.of_nat m)).
Proof.
  induction m as [|m IH]; intros [|steps] next Hin Hout Hlt; try lia.
  - simpl. rewrite N.add_0_r in Hout.
    apply count_slug_zero in Hout. rewrite Hout.
    rewrite bool_decide_eq_false_2 by apply suffixed_nonempty.
    simpl. by rewrite N.add_0_r.
  - simpl.
    rewrite bool_decide_eq_false_2 by apply suffixed_nonempty.
    specialize (Hin 0 ltac:(lia)) as H0. rewrite N.add_0_r in H0.
    apply count_slug_nonzero in H0.
    destruct (count_slug table (suffixed base next)) as [|c] eqn:E;
      [done|]. simpl.
    rewrite (IH steps (next + 1)%N); [f_equal; f_equal; lia| | |lia].
    + intros i Hi. specialize (Hin (S i) ltac:(lia)).
      by replace (next + 1 + N.of_nat i)%N
        with (next + N.of_nat (S i))%N by lia.
    + by replace (next + 1 + N.of_nat m)%N
        with (next + N.of_nat (S m))%N by lia.
Qed.

Lemma bounded_least (P : nat -> Prop) `{!forall i, Decision (P i)} (n : nat) :
  (forall i, i < n -> ~ P i)
  \/ exists m, m < n /\ P m /\ forall i, i < m -> ~ P i.
Proof.
  induction n as [|n [Hnone|(m & Hm & HP & Hleast)]].
  - left. intros; lia.
  - destruct (decide (P n)) as [HP|HP].
    + right. exists n. eauto.
    + left. intros i Hi. destruct (decide (i = n)) as [->|]; [done|].
      apply Hnone. lia.
  - right. exists m. eauto.
Qed.

(** Among the first [length table + 1] counters one gives a slug that is
    not in the table. *)
Lemma least_free table base next :
  exists m, m <= length table
    /\ (forall i, i < m -> suffixed base (next + N.of_nat i) ∈ slugs table)
    /\ (suffixed base (next + N.of_nat m) ∉ slugs table).
Proof.
  destruct (bounded_least
              (fun i => suffixed base (next + N.of_nat i) ∉ slugs table)
              (S (length table))) as [Hall|(m & Hm & Hfree & Hleast)].
  - exfalso.
    set (f := fun i : nat => suffixed base (next + N.of_nat i)).
    assert (NoDup (f <$> seq 0 (S (length table)))) as Hnd.
    { apply NoDup_fmap_2; [|apply NoDup_seq].
      intros i j Hij. apply suffixed_inj in Hij. lia. }
    assert (f <$> seq 0 (S (length table)) ⊆+ slugs table) as Hsub.
    { apply NoDup_submseteq; [done|].
      intros s (i & -> & Hi)%list_elem_of_fmap.
      apply elem_of_seq in Hi. apply dec_stable, Hall. lia. }
    apply submseteq_length in Hsub.
    unfold slugs in Hsub.
    rewrite length_fmap, length_seq in Hsub.
    change (map row_slug table) with (row_slug <$> table) in Hsub.
    rewrite length_fmap in Hsub. lia.
  - exists m. split; [lia|]. split; [|done].
    intros i Hi. apply dec_stable, Hleast, Hi.
Qed.

(** The loop of [unique_slug] always finishes within the steps granted to
    it, and returns the first suffixed slug that is not in the table. *)
Lemma while_total table base :
  exists m, m <= length table
    /\ (forall i, i < m -> suffixed base (2 + N.of_nat i) ∈ slugs table)
    /\ (suffixed base (2 + N.of_nat m) ∉ slugs table)
    /\ while_taken (length table + 2) table base "" 2
        = Ok (suffixed base (2 + N.of_nat m)).
Proof.
  destruct (least_free table base 2) as (m & Hm & Hin & Hout).
  exists m. do 3 (split; [done|]).
  replace (length table + 2) with (S (length table + 1)) by lia.
  simpl. apply (while_search table base m); [done|done|lia].
Qed.

End SlugLoop.

(** ** [SluggedModel.unique_slug] and [SluggedModel.save] *)

Section SlugFacts.

Import Models.
Local Arguments String.append !_ _ /.

Variable slugify : string -> string.

Implicit Types (table : Table) (e : Entity) (base : string).

Lemma unique_slug_kept table e :
  slug e <> "" -> unique_slug slugify table e = Ok e.
Proof.
  intros Hs. unfold unique_slug. by rewrite bool_decide_eq_false_2.
Qed.

Lemma unique_slug_no_text table e :
  slug e = "" -> slug_txt e = None -> unique_slug slugify table e = Ok e.
Proof.
  intros Hs Ht. unfold unique_slug.
  by rewrite bool_decide_eq_true_2, Ht.
Qed.

Lemma unique_slug_unused table e t :
  slug e = "" -> slug_txt e = Some t -> slugify t ∉ slugs table ->
  unique_slug slugify table e = Ok (set_slug e (slugify t)).
Proof.
  intros Hs Ht Hfree. unfold unique_slug.
  rewrite bool_decide_eq_true_2, Ht by done.
  apply count_slug_zero in Hfree. by rewrite Hfree.
Qed.

Lemma unique_slug_collision table e t :
  slug e = "" -> slug_txt e = Some t -> slugify t ∈ slugs table ->
  exists m, m <= length table
    /\ (forall i, i < m ->
          suffixed (slugify t) (2 + N.of_nat i) ∈ slugs table)
    /\ (suffixed (slugify t) (2 + N.of_nat m) ∉ slugs table)
    /\ unique_slug slugify table e
        = Ok (set_slug e (suffixed (slugify t) (2 + N.of_nat m))).
Proof.
  intros Hs Ht Hused. unfold unique_slug.
  rewrite bool_decide_eq_true_2, Ht by done.
  apply count_slug_nonzero in Hused.
  destruct (count_slug table (slugify t)) as [|c] eqn:E; [done|]. simpl.
  destruct (while_total table (slugify t)) as (m & Hm & Hin & Hout & ->).
  exists m. by repeat split.
Qed.

(** A slug computed by [unique_slug] is not in the table. *)
Lemma unique_slug_not_in_table table e e' :
  slug e = "" -> is_Some (slug_txt e) ->
  unique_slug slugify table e = Ok e' -> slug e' ∉ slugs table.
Proof.
  intros Hs [t Ht] Hu.
  destruct (decide (slugify t ∈ slugs table)) as [Hin|Hout].
  - destruct (unique_slug_collision table e t Hs Ht Hin)
      as (m & _ & _ & Hfree & Hu').
    rewrite Hu' in Hu. by injection Hu as <-.
  - rewrite (unique_slug_unused table e t Hs Ht Hout) in Hu.
    by injection Hu as <-.
Qed.

(** [unique_slug] always returns: it raises nothing and its loop
    finishes. *)
Lemma unique_slug_total table e :
  exists e', unique_slug slugify table e = Ok e'.
Proof.
  destruct (decide (slug e = "")) as [Hs|Hs];
    [|by eexists; apply unique_slug_kept].
  destruct (slug_txt e) as [t|] eqn:Ht;
    [|by eexists; apply unique_slug_no_text].
  destruct (decide (slugify t ∈ slugs table)) as [Hin|Hout].
  - destruct (unique_slug_collision table e t Hs Ht Hin)
      as (m & _ & _ & _ & ->). eauto.
  - eexists. by apply unique_slug_unused.
Qed.

Lemma slugs_app table table' : slugs (table ++ table') = slugs table ++ slugs table'.
Proof. unfold slugs. apply map_app. Qed.

Lemma model_save_new table e :
  pk e = None ->
  model_save table e
  = (table ++ [to_row (next_pk table) e], set_pk e (next_pk table)).
Proof. intros Hpk. unfold model_save. by rewrite Hpk. Qed.

(** Every row of the table after [Model.save] is an old row or carries the
    columns of the saved instance. *)
Lemma model_save_rows table e r :
  r ∈ (model_save table e).1 ->
  r ∈ table \/ (row_slug r = slug e /\ row_payload r = payload e).
Proof.
  unfold model_save. destruct (pk e) as [k|]; simpl.
  - destruct (existsb _ table); simpl.
    + intros (r0 & -> & Hr0)%list_elem_of_fmap.
      destruct (row_pk r0 =? k); [by right|by left].
    + intros [?|Hr%list_elem_of_singleton]%elem_of_app;
        [by left|by subst; right].
  - intros [?|Hr%list_elem_of_singleton]%elem_of_app;
      [by left|by subst; right].
Qed.

(** The saved instance is stored: the table holds a row with its primary
    key and its columns. *)
Lemma model_save_stored table e :
  exists r, r ∈ (model_save table e).1
    /\ Some (row_pk r) = pk (model_save table e).2
    /\ row_slug r = slug e /\ row_payload r = payload e
    /\ slug (model_save table e).2 = slug e.
Proof.
  unfold model_save. destruct (pk e) as [k|] eqn:Hpk; simpl.
  - destruct (existsb _ table) eqn:Hex; simpl.
    + apply existsb_exists in Hex as (r0 & Hr0 & Hk).
      exists (to_row k e). rewrite Hpk. split; [|done].
      apply list_elem_of_fmap. exists r0. rewrite Hk.
      split; [done|]. by apply list_elem_of_In.
    + exists (to_row k e). rewrite Hpk. split; [|done].
      apply elem_of_app. right. by apply list_elem_of_singleton.
  - exists (to_row (next_pk table) e). split; [|done].
    apply elem_of_app. right. by apply list_elem_of_singleton.
Qed.

Lemma save_unfold table e e1 :
  unique_slug slugify table e = Ok e1 ->
  save slugify table e
  = if bool_decide (slug e1 = "") then Raise ValueError
    else Ok (model_save table e1).
Proof. intros H. unfold save. by rewrite H. Qed.

(** [save] never fails to return. *)
Lemma save_total table e : save slugify table e <> Diverged.
Proof.
  destruct (unique_slug_total table e) as [e1 H1].
  rewrite (save_unfold _ _ _ H1). by case_bool_decide.
Qed.

(** Claim C7.  Saving an instance whose slug is already non-empty leaves
    the slug alone: [unique_slug] returns the instance untouched, [save]
    succeeds, the instance it returns has the same slug, and the row it
    writes holds that slug next to the instance's other columns, whatever
    they are. *)
Theorem save_keeps_existing_slug table e :
  slug e <> "" ->
  unique_slug slugify table e = Ok e
  /\ exists table' e',
       save slugify table e = Ok (table', e')
       /\ slug e' = slug e
       /\ exists r, r ∈ table' /\ Some (row_pk r) = pk e'
            /\ row_slug r = slug e /\ row_payload r = payload e.
Proof.
  intros Hs. pose proof (unique_slug_kept table e Hs) as Hu.
  split; [done|].
  exists (model_save table e).1, (model_save table e).2.
  rewrite (save_unfold _ _ _ Hu), bool_decide_eq_false_2 by done.
  destruct (model_save_stored table e) as (r & Hr & Hk & Hrs & Hrp & Hes).
  split; [by destruct (model_save table e)|].
  split; [done|]. by exists r.
Qed.

Lemma save_rows table e table' e' r :
  save slugify table e = Ok (table', e') -> r ∈ table' ->
  r ∈ table \/ row_slug r <> "".
Proof.
  destruct (unique_slug_total table e) as [e1 H1].
  rewrite (save_unfold _ _ _ H1).
  case_bool_decide as Hne; [done|]. intros [= Heq] Hr.
  destruct (model_save_rows table e1 r) as [?|[Hr' _]];
    [by rewrite Heq|by left|right; congruence].
Qed.

Lemma reachable_no_blank table :
  reachable slugify table -> forall r, r ∈ table -> row_slug r <> "".
Proof.
  induction 1 as [|table e table' e' _ IH Hsave]; intros r Hr.
  - by apply elem_of_nil in Hr.
  - destruct (save_rows _ _ _ _ _ Hsave Hr) as [?|?]; auto.
Qed.

(** Claim C9.  In every table built by [save], no row has an empty slug;
    and saving into such a table an instance without a slug, whose slug
    text normalises to the empty string or which offers no slug text at
    all, raises [ValueError] instead of storing anything. *)
Theorem blank_slug_rejected table :
  reachable slugify table ->
  (forall r, r ∈ table -> row_slug r <> "")
  /\ forall e,
       slug e = "" ->
       slug_txt e = None \/ slugify <$> slug_txt e = Some "" ->
       save slugify table e = Raise ValueError.
Proof.
  intros Hreach. pose proof (reachable_no_blank table Hreach) as Hinv.
  split; [done|]. intros e Hs [Hnone|Hblank].
  - rewrite (save_unfold _ _ _ (unique_slug_no_text table e Hs Hnone)).
    by rewrite bool_decide_eq_true_2.
  - destruct (slug_txt e) as [t|] eqn:Ht; [|done].
    injection Hblank as Hblank.
    assert (slugify t ∉ slugs table) as Hfree.
    { rewrite Hblank. intros (r & Hr & Hin)%list_elem_of_fmap.
      by apply (Hinv r). }
    rewrite (save_unfold _ _ _ (unique_slug_unused table e t Hs Ht Hfree)).
    by rewrite bool_decide_eq_true_2.
Qed.

Lemma save_new_unused table e base :
  new_with_base slugify base e -> base <> "" -> base ∉ slugs table ->
  save slugify table e
  = Ok (table ++ [to_row (next_pk table) (set_slug e base)],
        set_pk (set_slug e base) (next_pk table)).
Proof.
  intros (Hpk & Hs & Ht) Hne Hfree.
  destruct (slug_txt e) as [t|] eqn:Htxt; [|done].
  injection Ht as <-.
  rewrite (save_unfold _ _ _ (unique_slug_unused table e t Hs Htxt Hfree)).
  rewrite bool_decide_eq_false_2 by done.
  by rewrite model_save_new.
Qed.

Lemma save_new_collision table e base (j : nat) :
  new_with_base slugify base e -> base ∈ slugs table ->
  (forall i, i < j -> suffixed base (2 + N.of_nat i) ∈ slugs table) ->
  suffixed base (2 + N.of_nat j) ∉ slugs table ->
  save slugify table e
  = Ok (table ++ [to_row (next_pk table)
                    (set_slug e (suffixed base (2 + N.of_nat j)))],
        set_pk (set_slug e (suffixed base (2 + N.of_nat j)))
          (next_pk table)).
Proof.
  intros (Hpk & Hs & Ht) Hused Hin Hout.
  destruct (slug_txt e) as [t|] eqn:Htxt; [|done].
  injection Ht as <-.
  destruct (unique_slug_collision table e t Hs Htxt Hused)
    as (m & _ & Hin' & Hout' & Hu).
  assert (m = j) as ->.
  { destruct (Nat.lt_trichotomy m j) as [Hlt|[?|Hlt]]; [|done|].
    - by destruct Hout'; apply Hin.
    - by destruct Hout; apply Hin'. }
  rewrite (save_unfold _ _ _ Hu).
  rewrite bool_decide_eq_false_2 by apply suffixed_nonempty.
  by rewrite model_save_new.
Qed.

(** Once the base slug is taken, instances with that base receive the
    suffixed slugs of consecutive counters. *)
Lemma save_all_collisions base es :
  forall (j : nat) table,
    Forall (new_with_base slugify base) es ->
    base ∈ slugs table ->
    (forall i, i < j -> suffixed base (2 + N.of_nat i) ∈ slugs table) ->
    (forall i, j <= i < j + length es ->
       suffixed base (2 + N.of_nat i) ∉ slugs table) ->
    exists table' es',
      save_all slugify table es = Ok (table', es')
      /\ slug <$> es'
         = (fun i => suffixed base (2 + N.of_nat i)) <$> seq j (length es).
Proof.
  induction es as [|e es IH]; intros j table Hnew Hbase Hin Hout.
  - by exists table, [].
  - apply Forall_cons in Hnew as [He Hes]. simpl in Hout.
    simpl. rewrite (save_new_collision table e base j)
      by (try done; apply Hout; lia).
    simpl. set (s := suffixed base (2 + N.of_nat j)).
    set (table1 := table ++ _).
    assert (slugs table1 = slugs table ++ [s]) as Hslugs
      by (unfold table1; by rewrite slugs_app).
    destruct (IH (S j) table1) as (table' & es' & -> & Hes').
    + done.
    + rewrite Hslugs. apply elem_of_app. by left.
    + intros i Hi. rewrite Hslugs. apply elem_of_app.
      destruct (decide (i = j)) as [->|];
        [right; by apply list_elem_of_singleton|left; apply Hin; lia].
    + intros i Hi. rewrite Hslugs.
      intros [?|Heq%list_elem_of_singleton]%elem_of_app.
      * by apply (Hout i); [lia|].
      * apply suffixed_inj in Heq. lia.
    + exists table', (set_pk (set_slug e s) (next_pk table) :: es').
      split; [done|]. by rewrite fmap_cons, Hes'.
Qed.

Lemma slug_series_NoDup base (n : nat) : NoDup (slug_series base n).
Proof.
  destruct n as [|n]; [constructor|]. simpl. apply NoDup_cons. split.
  - intros (k & Hk & _)%list_elem_of_fmap.
    apply (f_equal len) in Hk. rewrite len_app in Hk. simpl in Hk. lia.
  - apply NoDup_fmap_2.
    + intros j k Hjk. apply (inj (String.app base)) in Hjk.
      injection Hjk as Hjk. by apply (inj pretty) in Hjk.
    + apply NoDup_fmap_2; [|apply NoDup_seq]. intros i j Hij. lia.
Qed.

(** Claim C1, as the code has it.  Take a table in which none of [base],
    [base-2], ..., [base-N] is used, and save [N] new instances whose slug
    text normalises to the same non-empty [base], with [base-N] within the
    256-character ceiling.  All saves succeed and the slugs assigned are,
    in order, [base], [base-2], [base-3], ..., [base-N], which are
    pairwise distinct: every suffix is appended to the original base. *)
Theorem identical_text_slug_series table base es :
  base <> "" ->
  Forall (new_with_base slugify base) es ->
  (forall s, s ∈ slug_series base (length es) -> s ∉ slugs table) ->
  len base + len (suffix (N.of_nat (length es))) <= 256 ->
  exists table' es',
    save_all slugify table es = Ok (table', es')
    /\ slug <$> es' = slug_series base (length es)
    /\ NoDup (slug <$> es').
Proof.
  intros Hne Hnew Hfree Hfit.
  enough (exists table' es',
            save_all slugify table es = Ok (table', es')
            /\ slug <$> es' = slug_series base (length es))
    as (table' & es' & Hsave & Hslugs).
  { exists table', es'. rewrite Hslugs.
    auto using slug_series_NoDup. }
  destruct es as [|e es]; [by exists table, []|].
  apply Forall_cons in Hnew as [He Hes]. simpl in Hfit, Hfree.
  assert (forall i, i < length es ->
            suffixed base (2 + N.of_nat i)
            = base +:+ "-" +:+ str_of_int (2 + N.of_nat i)) as Hpattern.
  { intros i Hi. apply suffixed_fits. etrans; [|exact Hfit].
    apply Nat.add_le_mono_l. unfold suffix. rewrite !len_app.
    apply Nat.add_le_mono_l, len_str_of_int_mono. lia. }
  simpl. rewrite (save_new_unused table e base)
    by (try done; apply Hfree, list_elem_of_here).
  simpl. set (table1 := table ++ _).
  assert (slugs table1 = slugs table ++ [base]) as Hslugs
    by (unfold table1; by rewrite slugs_app).
  destruct (save_all_collisions base es 0 table1)
    as (table' & es' & -> & Hes').
  - done.
  - rewrite Hslugs. apply elem_of_app. right.
    by apply list_elem_of_singleton.
  - intros; lia.
  - intros i Hi. rewrite Hslugs, Hpattern by lia.
    intros [Hin|Heq%list_elem_of_singleton]%elem_of_app.
    + revert Hin. apply Hfree, list_elem_of_further.
      apply list_elem_of_fmap. exists (2 + N.of_nat i)%N. split; [done|].
      apply list_elem_of_fmap. exists i. split; [done|].
      apply elem_of_seq. lia.
    + apply (f_equal len) in Heq. rewrite len_app in Heq.
      simpl in Heq. lia.
  - exists table', (set_pk (set_slug e base) (next_pk table) :: es').
    split; [done|]. rewrite fmap_cons, Hes'. simpl. f_equal.
    unfold counters. rewrite <- list_fmap_compose.
    apply list_fmap_ext. intros i k Hk.
    apply lookup_seq in Hk as [-> Hi]. simpl. by apply Hpattern.
Qed.

(** A suffix of at most 200 characters that does not fit next to the
    original slug makes the loop body keep [200 - len(suffix)] characters
    of it; the suffixed slug never exceeds 256 characters. *)
Lemma suffixed_truncated base (next : N) :
  len (suffix next) <= 200 ->
  len (suffixed base next) <= 256
  /\ (256 < len base + len (suffix next) ->
      suffixed base next
      = take (Nat.max 0 (200 - len (suffix next))) base +:+ suffix next).
Proof.
  intros Hend. unfold suffixed.
  case_decide as Hlong; [|split; [rewrite len_app; lia|lia]].
  rewrite slice_to_nonneg by lia.
  replace (Z.to_nat (200 - Z.of_nat (len (suffix next))))
    with (Nat.max 0 (200 - len (suffix next))) by lia.
  split; [|done]. rewrite len_app, len_take. lia.
Qed.

(** Claim C6.  When the normalised slug of an instance without a slug is
    already taken, [unique_slug] settles on a suffixed slug that no row of
    the table uses and that is at most 256 characters long; and whenever
    the original slug plus the suffix would exceed 256 characters, that
    slug is the first [max(0, 200 - len(suffix))] characters of the
    original followed by the suffix.  (The table has fewer than [10^199]
    rows, so that a suffix has at most 200 characters.) *)
Theorem truncated_slug_unique_and_bounded table e t :
  slug e = "" ->
  slug_txt e = Some t ->
  slugify t ∈ slugs table ->
  (N.of_nat (length table) + 2 < 10 ^ 199)%N ->
  exists next : N,
    (2 <= next)%N
    /\ unique_slug slugify table e
       = Ok (set_slug e (suffixed (slugify t) next))
    /\ (suffixed (slugify t) next ∉ slugs table)
    /\ len (suffixed (slugify t) next) <= 256
    /\ (256 < len (slugify t) + len (suffix next) ->
        suffixed (slugify t) next
        = take (Nat.max 0 (200 - len (suffix next))) (slugify t)
          +:+ suffix next).
Proof.
  intros Hs Ht Hused Hsize.
  destruct (unique_slug_collision table e t Hs Ht Hused)
    as (m & Hm & _ & Hout & Hu).
  exists (2 + N.of_nat m)%N.
  split; [lia|]. split; [done|]. split; [done|].
  apply suffixed_truncated. unfold suffix. rewrite len_app. simpl.
  enough (len (str_of_int (2 + N.of_nat m)) <= 199) by lia.
  apply len_str_of_int_bound; [lia|].
  change (N.of_nat 199) with 199%N. lia.
Qed.

End SlugFacts.

(** ** Response shaping *)

Section ShapingFacts.

Import Resources.

Context {V : Type}.

Implicit Types (request : Request) (obj bundle : Bundle V)
  (objs : list (Bundle V)) (key : string).

Lemma for_each_ok {A B} (f : A -> outcome B) (g : A -> B) (xs : list A) :
  (forall x, x ∈ xs -> f x = Ok (g x)) -> for_each f xs = Ok (g <$> xs).
Proof.
  induction xs as [|x xs IH]; intros Hf; simpl; [done|].
  rewrite (Hf x) by apply list_elem_of_here. simpl.
  rewrite IH; [done|]. intros y Hy. by apply Hf, list_elem_of_further.
Qed.

Lemma del_data_present key obj :
  has_key key obj = true ->
  del_data key obj = Ok {| data := delete key (data obj) |}.
Proof.
  unfold has_key, del_data, del. by destruct (data obj !! key).
Qed.

(** The guarded deletion drops the field if it is there and otherwise
    leaves the bundle as it is; it never raises. *)
Lemma try_del_data key obj :
  try_except_pass obj (del_data key obj)
  = Ok {| data := delete key (data obj) |}.
Proof.
  unfold del_data, del. destruct (data obj !! key) eqn:E; simpl; [done|].
  rewrite delete_id by done. by destruct obj.
Qed.

Lemma lookup_drop_keys (keys : list string) obj key :
  data (drop_keys keys obj) !! key
  = if decide (key ∈ keys) then None else data obj !! key.
Proof.
  unfold drop_keys. simpl. generalize (data obj) as d.
  induction keys as [|k keys IH]; intros d; simpl.
  - done.
  - rewrite IH. destruct (decide (key ∈ keys)) as [Hin|Hout].
    + by rewrite decide_True by (by apply list_elem_of_further).
    + destruct (decide (key = k)) as [->|Hne].
      * rewrite decide_True by apply list_elem_of_here.
        apply lookup_delete_eq.
      * rewrite decide_False by (by intros [?|?]%elem_of_cons).
        by apply lookup_delete_ne.
Qed.

(** The exclusion loops of the list hook: whatever the names, they return
    and drop exactly the named fields of every bundle. *)
Lemma exclusion_loops (keys : list string) objs :
  for_fold (fun objs exclude =>
    for_each (fun obj => try_except_pass obj (del_data exclude obj)) objs)
    objs keys
  = Ok (drop_keys keys <$> objs).
Proof.
  revert objs. induction keys as [|k keys IH]; intros objs; simpl.
  - f_equal. induction objs as [|[d] objs IHo]; [done|].
    rewrite fmap_cons, <- IHo. done.
  - rewrite (for_each_ok _ (fun obj => {| data := delete k (data obj) |}))
      by (intros; apply try_del_data).
    simpl. rewrite IH. f_equal. rewrite <- list_fmap_compose.
    by apply list_fmap_ext.
Qed.

(** The detail hook on a bundle that has both geometry fields. *)
Lemma alter_detail_ok request bundle :
  has_shapes bundle = true ->
  alter_detail_data_to_serialize request bundle
  = Ok (trimmed (GET_get request "shape_type" "simple") bundle).
Proof.
  intros [Hshape Hsimple]%andb_prop.
  unfold alter_detail_data_to_serialize, trimmed.
  generalize (GET_get request "shape_type" "simple") as shape_type.
  intros shape_type.
  destruct (decide (shape_type = "simple")) as [->|Hs].
  - rewrite bool_decide_eq_false_2 by (by intros ?).
    rewrite bool_decide_eq_true_2 by done. simpl.
    by rewrite del_data_present.
  - rewrite bool_decide_eq_true_2 by done. simpl.
    rewrite del_data_present by done. simpl.
    destruct (decide (shape_type = "full")) as [->|Hf].
    + by rewrite bool_decide_eq_false_2 by (by intros ?).
    + rewrite bool_decide_eq_true_2 by done.
      rewrite del_data_present; [done|].
      unfold has_key in *. simpl. by rewrite lookup_delete_ne.
Qed.

Lemma trimmed_shape (shape_type : string) obj :
  shape_type <> "full" -> data (trimmed shape_type obj) !! "shape" = None.
Proof.
  intros Hf. unfold trimmed. simpl.
  rewrite decide_False by done. apply lookup_delete_eq.
Qed.

Lemma trimmed_simple_shape (shape_type : string) obj :
  shape_type <> "simple" ->
  data (trimmed shape_type obj) !! "simple_shape" = None.
Proof.
  intros Hs. unfold trimmed. simpl. rewrite (decide_False _ _ Hs).
  case_decide; [|rewrite lookup_delete_ne by done]; apply lookup_delete_eq.
Qed.

Lemma trimmed_other (shape_type : string) obj key :
  key <> "shape" -> key <> "simple_shape" ->
  data (trimmed shape_type obj) !! key = data obj !! key.
Proof.
  intros H1 H2. unfold trimmed. simpl.
  repeat case_decide; by rewrite ?lookup_delete_ne by done.
Qed.

(** The list hook on bundles that have both geometry fields: every bundle
    is trimmed as by the detail hook, then loses the excluded fields. *)
Lemma alter_list_ok request (data_ : ListData V) :
  forallb has_shapes (objects data_) = true ->
  alter_list_data_to_serialize request data_
  = Ok {| meta := meta data_;
          objects :=
            drop_keys (excludes_of request)
            <$> (trimmed (GET_get request "shape_type" "simple")
                 <$> objects data_) |}.
Proof.
  intros Hall. unfold alter_list_data_to_serialize.
  change (for_each _ (objects data_))
    with (for_each (alter_detail_data_to_serialize request)
            (objects data_)).
  rewrite (for_each_ok _
             (trimmed (GET_get request "shape_type" "simple"))).
  2:{ intros obj Hobj. apply alter_detail_ok.
      rewrite forallb_forall in Hall. by apply Hall, list_elem_of_In. }
  simpl. fold (excludes_of request).
  set (objs := trimmed _ <$> objects data_).
  destruct (excludes_of request) as [|k ks].
  - pose proof (exclusion_loops [] objs) as Hnil.
    injection Hnil as Hnil. simpl. by rewrite <- Hnil.
  - by rewrite exclusion_loops.
Qed.

Lemma drop_keys_keeps_none (keys : list string) obj key :
  data obj !! key = None -> data (drop_keys keys obj) !! key = None.
Proof. intros Hnone. rewrite lookup_drop_keys. by case_decide. Qed.


(** Claim C5.  The exclusion loops of the list hook return for every list
    of names and every list of bundles, dropping the named fields where
    they exist and passing over the names that do not occur.  For the
    list hook as a whole, on bundles that carry both geometry fields: it
    returns, and in each bundle a field named in [excludes] is absent,
    while every other field is as the trimming to the detail level left
    it. *)
Theorem excludes_best_effort request (data_ : ListData V) :
  (forall objs (keys : list string),
     for_fold (fun objs exclude =>
       for_each (fun obj => try_except_pass obj (del_data exclude obj))
         objs) objs keys
     = Ok (drop_keys keys <$> objs))
  /\ (forallb has_shapes (objects data_) = true ->
      exists data',
        alter_list_data_to_serialize request data_ = Ok data'
        /\ meta data' = meta data_
        /\ Forall2 (fun obj obj' => forall key,
              data obj' !! key
              = if decide (key ∈ excludes_of request) then None
                else data (trimmed (GET_get request "shape_type" "simple")
                             obj) !! key)
             (objects data_) (objects data')).
Proof.
  split; [intros; apply exclusion_loops|].
  intros Hall. eexists. split; [by apply alter_list_ok|].
  split; [done|]. simpl.
  rewrite <- list_fmap_compose. apply Forall2_fmap_r, Forall_Forall2_diag.
  apply Forall_forall. intros obj _ key. apply lookup_drop_keys.
Qed.

Lemma GET_get_insert_eq request key (v d : string) :
  GET_get {| GET := <[key := v]> (GET request) |} key d = v.
Proof. unfold GET_get. simpl. by rewrite lookup_insert_eq. Qed.

Lemma GET_get_insert_ne request key key' (v d : string) :
  key <> key' ->
  GET_get {| GET := <[key := v]> (GET request) |} key' d
  = GET_get request key' d.
Proof. intros Hne. unfold GET_get. simpl. by rewrite lookup_insert_ne. Qed.

(** The detail hook does not depend on the [excludes] parameter. *)
Lemma alter_detail_excludes_unread request (v : string) bundle :
  alter_detail_data_to_serialize
    {| GET := <["excludes" := v]> (GET request) |} bundle
  = alter_detail_data_to_serialize request bundle.
Proof.
  unfold alter_detail_data_to_serialize.
  by rewrite !GET_get_insert_ne by done.
Qed.

(** Claim C10.  A [shape_type] other than exactly ["simple"] or ["full"]
    makes both hooks do what they do for ["none"]; on bundles that carry
    both geometry fields they return, and no bundle they return has a
    [shape] or a [simple_shape] field. *)
Theorem unknown_shape_type_as_none request (v : string)
    (data_ : ListData V) bundle :
  v <> "simple" -> v <> "full" ->
  let req := {| GET := <["shape_type" := v]> (GET request) |} in
  let req_none := {| GET := <["shape_type" := "none"]> (GET request) |} in
  alter_list_data_to_serialize req data_
  = alter_list_data_to_serialize req_none data_
  /\ alter_detail_data_to_serialize req bundle
     = alter_detail_data_to_serialize req_none bundle
  /\ (forallb has_shapes (objects data_) = true ->
      has_shapes bundle = true ->
      exists data' bundle',
        alter_list_data_to_serialize req data_ = Ok data'
        /\ alter_detail_data_to_serialize req bundle = Ok bundle'
        /\ forall obj, obj ∈ bundle' :: objects data' ->
             data obj !! "shape" = None
             /\ data obj !! "simple_shape" = None).
Proof.
  intros Hs Hf req req_none.
  split; [|split].
  - unfold alter_list_data_to_serialize, req, req_none.
    rewrite !GET_get_insert_eq, !GET_get_insert_ne by done.
    by rewrite !bool_decide_eq_true_2 by done.
  - unfold alter_detail_data_to_serialize, req, req_none.
    rewrite !GET_get_insert_eq.
    by rewrite !bool_decide_eq_true_2 by done.
  - intros Hall Hone. eexists _, _.
    split; [by apply alter_list_ok|].
    split; [by apply alter_detail_ok|].
    unfold req. rewrite GET_get_insert_eq.
    intros obj [->|Hobj]%elem_of_cons.
    + split; [by apply trimmed_shape|by apply trimmed_simple_shape].
    + simpl in Hobj.
      apply list_elem_of_fmap in Hobj as (o1 & -> & Ho1).
      apply list_elem_of_fmap in Ho1 as (o & -> & _).
      split; apply drop_keys_keeps_none;
        [by apply trimmed_shape|by apply trimmed_simple_shape].
Qed.

End ShapingFacts.

(** ** Filter translation *)

Section FilterFacts.

Import Resources.
Local Arguments String.append !_ _ /.

Context {Geom Dist : Type}.
Variable super_build_filters :
  gmap string string -> outcome (gmap string (@OrmValue Geom Dist)).
Variable D : string -> N -> outcome Dist.
Variable boundaries : list (string * Geom).

Implicit Types (filters : gmap string string) (lat lon range unit : string).

(** The value [lat,lon,range] splits into its three parts. *)
Lemma split_near lat lon range :
  all_chars (is_not ",") lat = true ->
  all_chars (is_not ",") lon = true ->
  all_chars (is_not ",") range = true ->
  split "," (lat +:+ "," +:+ lon +:+ "," +:+ range) = [lat; lon; range].
Proof.
  intros Hlat Hlon Hrange.
  change ("," +:+ lon +:+ "," +:+ range)
    with (String "," (lon +:+ String "," range)).
  rewrite split_app_sep by done. rewrite split_app_sep by done.
  by rewrite split_no_sep.
Qed.

Lemma digit_is_not_comma (c : ascii) :
  isdigit c = true -> is_not "," c = true.
Proof.
  intros Hc. apply bool_decide_eq_true. intros ->. discriminate.
Qed.

(** Claim C2, as the code has it.  A [near] filter [lat,lon,range] whose
    range does not begin with a digit makes [build_filters] raise
    [AttributeError]: the digit match yields [None] and [.group(1)] is
    applied to it. *)
Theorem near_without_digit_raises filters lat lon range orm :
  super_build_filters filters = Ok orm ->
  filters !! "contains" = None ->
  filters !! "near" = Some (lat +:+ "," +:+ lon +:+ "," +:+ range) ->
  all_chars (is_not ",") lat = true ->
  all_chars (is_not ",") lon = true ->
  all_chars (is_not ",") range = true ->
  not_headed_by isdigit range = true ->
  build_filters super_build_filters D boundaries (Some filters)
  = Raise AttributeError.
Proof.
  intros Hsuper Hcontains Hnear Hlat Hlon Hrange Hhead.
  unfold build_filters. simpl. rewrite Hsuper. simpl.
  destruct (filters !! "sets"); simpl;
    rewrite Hcontains; simpl; rewrite Hnear, split_near by done;
    by rewrite re_match_digits_none.
Qed.

(** Claim C8.  A [near] filter [lat,lon,<n><unit>], where [<n>] is the
    decimal numeral of [n] and [unit] does not begin with a digit, is
    translated by calling [D] with the unit [unit] and the integer [n];
    the measure it returns is stored, with the point, under
    [shape__distance_lte]. *)
Theorem near_filter_parsed filters lat lon (n : N) unit orm d :
  super_build_filters filters = Ok orm ->
  filters !! "contains" = None ->
  filters !! "intersects" = None ->
  filters !! "near"
    = Some (lat +:+ "," +:+ lon +:+ "," +:+ str_of_int n +:+ unit) ->
  all_chars (is_not ",") lat = true ->
  all_chars (is_not ",") lon = true ->
  all_chars (is_not ",") unit = true ->
  not_headed_by isdigit unit = true ->
  D unit n = Ok d ->
  exists orm',
    build_filters super_build_filters D boundaries (Some filters) = Ok orm'
    /\ orm' !! "shape__distance_lte"
       = Some (WithinDistance (wkt_point lon lat) d).
Proof.
  intros Hsuper Hcontains Hinter Hnear Hlat Hlon Hunit Hhead HD.
  assert (all_chars (is_not ",") (str_of_int n +:+ unit) = true) as Hrange.
  { rewrite all_chars_app, Hunit, andb_true_r.
    apply (all_chars_impl isdigit); [apply digit_is_not_comma|].
    apply all_digits_str_of_int. }
  assert (re_match_digits (str_of_int n +:+ unit) = Some (str_of_int n))
    as Hmatch.
  { unfold re_match_digits.
    rewrite leading_digits_app by auto using all_digits_str_of_int.
    pose proof (len_str_of_int_pos n) as Hpos.
    destruct (str_of_int n); [simpl in Hpos; lia|done]. }
  unfold build_filters. simpl. rewrite Hsuper. simpl.
  destruct (filters !! "sets"); simpl;
    rewrite Hcontains; simpl; rewrite Hnear, split_near by done;
    rewrite Hmatch; simpl; rewrite drop_app, int_str_of_int; simpl;
    rewrite HD; simpl; rewrite Hinter;
    (eexists; split; [done|apply lookup_insert_eq]).
Qed.

End FilterFacts.

(** ** The properties at sample data *)

Section Instances.

Import Models Resources Samples.

Example three_austins :
  save_all slugify_plain [] [fresh "austin"; fresh "austin"; fresh "austin"]
  = Ok ([{| row_pk := 1; row_slug := "austin"; row_payload := "" |};
         {| row_pk := 2; row_slug := "austin-2"; row_payload := "" |};
         {| row_pk := 3; row_slug := "austin-3"; row_payload := "" |}],
        [set_pk (set_slug (fresh "austin") "austin") 1;
         set_pk (set_slug (fresh "austin") "austin-2") 2;
         set_pk (set_slug (fresh "austin") "austin-3") 3]).
Proof. reflexivity. Qed.

(** A slug of 255 characters that is taken: the next one keeps 198 of them. *)
Example long_slug_suffixed :
  unique_slug slugify_plain long_table (fresh long_slug)
  = Ok (set_slug (fresh long_slug) (replicate_char 198 "a" +:+ "-2")).
Proof. vm_compute. reflexivity. Qed.

(** A table filled by other means than [save] may hold a row with an empty
    slug; an instance whose text normalises to the empty string is then
    stored under the slug [-2]. *)
Example blank_row_present :
  save slugify_plain
    [{| row_pk := 1; row_slug := ""; row_payload := "" |}] (fresh "")
  = Ok ([{| row_pk := 1; row_slug := ""; row_payload := "" |};
         {| row_pk := 2; row_slug := "-2"; row_payload := "" |}],
        set_pk (set_slug (fresh "") "-2") 2).
Proof. reflexivity. Qed.

Lemma identical_text_slug_series_witness :
  exists table' es',
    save_all slugify_plain []
      [fresh "austin"; fresh "austin"; fresh "austin"]
    = Ok (table', es')
    /\ slug <$> es' = ["austin"; "austin-2"; "austin-3"]
    /\ NoDup (slug <$> es').
Proof.
  apply (identical_text_slug_series slugify_plain [] "austin"
           [fresh "austin"; fresh "austin"; fresh "austin"]).
  - discriminate.
  - repeat constructor.
  - intros s _. apply not_elem_of_nil.
  - vm_compute. lia.
Defined.

Lemma truncated_slug_unique_and_bounded_witness :
  exists next : N,
    (2 <= next)%N
    /\ unique_slug slugify_plain long_table (fresh long_slug)
       = Ok (set_slug (fresh long_slug) (suffixed long_slug next))
    /\ (suffixed long_slug next ∉ slugs long_table)
    /\ len (suffixed long_slug next) <= 256
    /\ (256 < len long_slug + len (suffix next) ->
        suffixed long_slug next
        = take (Nat.max 0 (200 - len (suffix next))) long_slug
          +:+ suffix next).
Proof.
  apply (truncated_slug_unique_and_bounded slugify_plain long_table
           (fresh long_slug) long_slug).
  - reflexivity.
  - reflexivity.
  - apply list_elem_of_here.
  - vm_compute. reflexivity.
Defined.

Lemma save_keeps_existing_slug_witness :
  unique_slug slugify_plain austin_table austin = Ok austin
  /\ exists table' e',
       save slugify_plain austin_table austin = Ok (table', e')
       /\ slug e' = "austin"
       /\ exists r, r ∈ table' /\ Some (row_pk r) = pk e'
            /\ row_slug r = "austin" /\ row_payload r = "renamed".
Proof.
  apply (save_keeps_existing_slug slugify_plain austin_table austin).
  discriminate.
Defined.

Lemma blank_slug_rejected_witness :
  (forall r, r ∈ austin_table -> row_slug r <> "")
  /\ save slugify_plain austin_table (fresh "") = Raise ValueError.
Proof.
  assert (reachable slugify_plain austin_table) as Hreach.
  { apply (reachable_save slugify_plain [] (fresh "austin") austin_table
             (set_pk (set_slug (fresh "austin") "austin") 1)).
    - apply reachable_empty.
    - reflexivity. }
  destruct (blank_slug_rejected slugify_plain austin_table Hreach)
    as [Hinv Hsave].
  split; [exact Hinv|]. apply Hsave; [reflexivity|right; reflexivity].
Defined.


Lemma excludes_best_effort_witness :
  exists data',
    alter_list_data_to_serialize (query [("excludes", "bogus_field")])
      ward_list
    = Ok data'
    /\ Forall2 (fun obj obj' =>
          data obj' !! "name" = data obj !! "name"
          /\ data obj' !! "kind" = data obj !! "kind")
         (objects ward_list) (objects data').
Proof.
  destruct (excludes_best_effort (query [("excludes", "bogus_field")])
              ward_list) as [_ Hlist].
  destruct (Hlist eq_refl) as (data' & Hok & _ & Hfields).
  exists data'. split; [exact Hok|].
  eapply Forall2_impl; [exact Hfields|].
  intros obj obj' Hkeys.
  change (excludes_of _) with ["bogus_field"] in Hkeys.
  split; rewrite Hkeys;
    (rewrite decide_False;
     [apply trimmed_other; discriminate
     |intros Hin%list_elem_of_singleton; discriminate]).
Defined.

Lemma unknown_shape_type_as_none_witness :
  alter_list_data_to_serialize (query [("shape_type", "Simple")]) ward_list
  = alter_list_data_to_serialize (query [("shape_type", "none")]) ward_list
  /\ alter_detail_data_to_serialize (query [("shape_type", "FULL")]) ward
     = alter_detail_data_to_serialize (query [("shape_type", "none")]) ward.
Proof.
  split.
  - apply (unknown_shape_type_as_none (query []) "Simple" ward_list ward);
      discriminate.
  - apply (unknown_shape_type_as_none (query []) "FULL" ward_list ward);
      discriminate.
Defined.

Lemma near_filter_parsed_witness :
  exists orm',
    build_filters no_field_filters measure []
      (Some {[ "near" := "41.88,-87.63,5mi" ]})
    = Ok orm'
    /\ orm' !! "shape__distance_lte"
       = Some (WithinDistance "POINT(-87.63 41.88)" ("mi", 5%N)).
Proof.
  apply (near_filter_parsed no_field_filters measure []
           {[ "near" := "41.88,-87.63,5mi" ]} "41.88" "-87.63" 5 "mi" ∅);
    reflexivity.
Defined.

Lemma near_without_digit_raises_witness :
  build_filters no_field_filters measure []
    (Some {[ "near" := "41.88,-87.63,mi" ]})
  = Raise AttributeError.
Proof.
  apply (near_without_digit_raises no_field_filters measure []
           {[ "near" := "41.88,-87.63,mi" ]} "41.88" "-87.63" "mi" ∅);
    reflexivity.
Defined.

(** Claim C2, as stated, fails: for [near=41.88,-87.63,mi] the error
    raised is not [InvalidFilterError]. *)
Lemma near_without_digit_not_invalid_filter :
  build_filters no_field_filters measure []
    (Some {[ "near" := "41.88,-87.63,mi" ]})
  <> Raise InvalidFilterError.
Proof. vm_compute. discriminate. Qed.

(** Claim C4 on the code.  With [excludes=name], the list hook removes
    [name] from the bundle and the detail hook leaves it in the same
    bundle: the detail hook never reads [excludes]. *)
Theorem detail_ignores_excludes :
  (exists data' obj',
     alter_list_data_to_serialize (query [("excludes", "name")]) ward_list
     = Ok data'
     /\ objects data' = [obj'] /\ data obj' !! "name" = None)
  /\ (exists bundle',
       alter_detail_data_to_serialize (query [("excludes", "name")]) ward
       = Ok bundle'
       /\ data bundle' !! "name" = Some "Ward 5").
Proof.
  split.
  - eexists _, _. rewrite alter_list_ok by reflexivity.
    split; [reflexivity|]. split; [reflexivity|]. reflexivity.
  - eexists. rewrite alter_detail_ok by reflexivity.
    split; reflexivity.
Qed.

(** Claim C1, as stated, fails.  Two new instances with the same text of
    255 characters, saved into the empty table, receive the text and its
    first 198 characters followed by [-2], not the text followed by [-2];
    and two new instances with the text [austin], saved after one with the
    text [austin-2], receive [austin] and [austin-3]. *)
Lemma identical_text_series_broken :
  (exists table' es',
     save_all slugify_plain [] [fresh long_slug; fresh long_slug]
     = Ok (table', es')
     /\ slug <$> es' = [long_slug; replicate_char 198 "a" +:+ "-2"]
     /\ slug <$> es' <> slug_series long_slug 2)
  /\ (exists table' es',
        save_all slugify_plain
          [{| row_pk := 1; row_slug := "austin-2"; row_payload := "" |}]
          [fresh "austin"; fresh "austin"]
        = Ok (table', es')
        /\ save slugify_plain [] (fresh "austin-2")
           = Ok ([{| row_pk := 1; row_slug := "austin-2";
                     row_payload := "" |}],
                 set_pk (set_slug (fresh "austin-2") "austin-2") 1)
        /\ slug <$> es' = ["austin"; "austin-3"]
        /\ slug <$> es' <> slug_series "austin" 2).
Proof.
  split.
  - eexists _, _. split; [vm_compute; reflexivity|].
    split; [vm_compute; reflexivity|]. vm_compute. discriminate.
  - eexists _, _. split; [vm_compute; reflexivity|].
    split; [reflexivity|].
    split; [vm_compute; reflexivity|]. vm_compute. discriminate.
Qed.

End Instances.


(** ** More on slug assignment *)

Section SlugAssignment.

Import Models.
Local Arguments String.append !_ _ /.

Variable slugify : string -> string.

Implicit Types (table : Table) (e : Entity) (base : string).

Lemma set_slug_same e : set_slug e (slug e) = e.
Proof. by destruct e. Qed.

(** [unique_slug] returns for every table and instance: neither does it
    raise nor does its loop run on; what it returns is the instance with
    at most its slug changed. *)
Theorem unique_slug_returns table e :
  exists s, unique_slug slugify table e = Ok (set_slug e s).
Proof.
  destruct (decide (slug e = "")) as [Hs|Hs].
  - destruct (slug_txt e) as [t|] eqn:Ht.
    + destruct (decide (slugify t ∈ slugs table)) as [Hin|Hout].
      * destruct (unique_slug_collision slugify table e t Hs Ht Hin)
          as (m & _ & _ & _ & ->). eauto.
      * rewrite (unique_slug_unused slugify table e t) by done. eauto.
    + exists (slug e).
      by rewrite set_slug_same, unique_slug_no_text.
  - exists (slug e). by rewrite set_slug_same, unique_slug_kept.
Qed.

(** When the normalised text is taken, the counter that [unique_slug]
    settles on is the least one from 2 upwards whose suffixed slug is not
    in the table. *)
Theorem unique_slug_least_counter table e t :
  slug e = "" -> slug_txt e = Some t -> slugify t ∈ slugs table ->
  exists next : N,
    (2 <= next)%N
    /\ unique_slug slugify table e
       = Ok (set_slug e (suffixed (slugify t) next))
    /\ (suffixed (slugify t) next ∉ slugs table)
    /\ forall j : N, (2 <= j < next)%N ->
         suffixed (slugify t) j ∈ slugs table.
Proof.
  intros Hs Ht Hin.
  destruct (unique_slug_collision slugify table e t Hs Ht Hin)
    as (m & _ & Hbelow & Hfree & Hu).
  exists (2 + N.of_nat m)%N. split; [lia|]. do 2 (split; [done|]).
  intros j Hj.
  replace j with (2 + N.of_nat (N.to_nat (j - 2)))%N by lia.
  apply Hbelow. lia.
Qed.

Lemma save_new_slugless table e table' e' :
  pk e = None -> slug e = "" ->
  save slugify table e = Ok (table', e') ->
  (slug e' ∉ slugs table) /\ slugs table' = slugs table ++ [slug e'].
Proof.
  intros Hpk Hs Hsave.
  destruct (unique_slug_returns table e) as [s Hu].
  rewrite (save_unfold slugify _ _ _ Hu) in Hsave.
  case_bool_decide as Hblank; [done|].
  rewrite model_save_new in Hsave by done. injection Hsave as <- <-.
  split; [|by rewrite slugs_app].
  destruct (slug_txt e) as [t|] eqn:Ht.
  - apply (unique_slug_not_in_table slugify table e (set_slug e s));
      eauto.
  - rewrite (unique_slug_no_text slugify table e Hs Ht) in Hu.
    injection Hu as Hu. destruct Hblank. rewrite <- Hu. simpl. done.
Qed.

(** Saving new instances that carry no slug keeps the slugs of the table
    pairwise distinct, whatever their texts: if the slugs of the table are
    distinct and every save of the sequence succeeds, the slugs of the
    resulting table are distinct. *)
Theorem save_all_keeps_slugs_distinct es :
  forall table table' es',
    NoDup (slugs table) ->
    Forall (fun e => pk e = None /\ slug e = "") es ->
    save_all slugify table es = Ok (table', es') ->
    NoDup (slugs table') /\ slugs table' = slugs table ++ (slug <$> es').
Proof.
  induction es as [|e es IH]; intros table table' es' Hnd Hnew Hsave.
  - injection Hsave as <- <-. by rewrite app_nil_r.
  - apply Forall_cons in Hnew as [[Hpk Hs] Hes]. simpl in Hsave.
    destruct (save slugify table e) as [[table1 e1]| |] eqn:H1; [|done..].
    simpl in Hsave.
    destruct (save_all slugify table1 es) as [[table2 es2]| |] eqn:H2;
      [|done..].
    simpl in Hsave. injection Hsave as <- <-.
    destruct (save_new_slugless table e table1 e1 Hpk Hs H1)
      as [Hfree Hslugs].
    destruct (IH table1 table2 es2) as [Hnd2 Hslugs2]; [|done|done|].
    { rewrite Hslugs. apply NoDup_app. split; [done|].
      split; [|apply NoDup_singleton].
      by intros s Hin ->%list_elem_of_singleton. }
    split; [done|].
    by rewrite Hslugs2, Hslugs, fmap_cons, <- app_assoc.
Qed.

(** An instance that already carries a slug is stored with it unchecked:
    when a new instance brings a slug that a row of the table has, [save]
    succeeds and the table then holds that slug twice. *)
Theorem preset_slug_not_checked table e :
  slug e <> "" -> pk e = None -> slug e ∈ slugs table ->
  exists table' e',
    save slugify table e = Ok (table', e')
    /\ slugs table' = slugs table ++ [slug e]
    /\ ~ NoDup (slugs table').
Proof.
  intros Hs Hpk Hin.
  rewrite (save_unfold slugify _ _ _ (unique_slug_kept slugify table e Hs)).
  rewrite bool_decide_eq_false_2, model_save_new by done.
  eexists _, _. split; [done|]. rewrite slugs_app. split; [done|].
  intros [_ [Hdisj _]]%NoDup_app. apply (Hdisj (slug e) Hin).
  by apply list_elem_of_singleton.
Qed.

(** [save] raises [ValueError] exactly when the instance has no slug and
    either offers no slug text, or its text normalises to the empty string
    while no row has the empty slug; in every other case it succeeds. *)
Theorem save_raises_iff table e :
  let blank :=
    slug e = ""
    /\ (slug_txt e = None
        \/ exists t, slug_txt e = Some t /\ slugify t = ""
                     /\ "" ∉ slugs table) in
  (save slugify table e = Raise ValueError <-> blank)
  /\ (~ blank -> exists r, save slugify table e = Ok r).
Proof.
  intros blank.
  assert (blank \/ exists r, save slugify table e = Ok r) as Hcases.
  { destruct (decide (slug e = "")) as [Hs|Hs].
    - destruct (slug_txt e) as [t|] eqn:Ht; [|left; split; auto].
      destruct (decide (slugify t ∈ slugs table)) as [Hin|Hout].
      + right.
        destruct (unique_slug_collision slugify table e t Hs Ht Hin)
          as (m & _ & _ & _ & Hu).
        rewrite (save_unfold slugify _ _ _ Hu).
        rewrite bool_decide_eq_false_2 by apply suffixed_nonempty. eauto.
      + rewrite (save_unfold slugify _ _ _
                   (unique_slug_unused slugify table e t Hs Ht Hout)).
        destruct (decide (slugify t = "")) as [Hb|Hb].
        * left. split; [done|]. right. exists t.
          split; [done|]. split; [done|]. by rewrite <- Hb.
        * right. rewrite bool_decide_eq_false_2 by done. eauto.
    - right.
      rewrite (save_unfold slugify _ _ _ (unique_slug_kept slugify table e Hs)).
      rewrite bool_decide_eq_false_2 by done. eauto. }
  assert (blank -> save slugify table e = Raise ValueError) as Hraise.
  { intros [Hs [Hnone|(t & Ht & Hb & Hfree)]].
    - rewrite (save_unfold slugify _ _ _
                 (unique_slug_no_text slugify table e Hs Hnone)).
      by rewrite bool_decide_eq_true_2.
    - rewrite <- Hb in Hfree.
      rewrite (save_unfold slugify _ _ _
                 (unique_slug_unused slugify table e t Hs Ht Hfree)).
      by rewrite bool_decide_eq_true_2. }
  split; [split; [|done]|].
  - intros Hr. destruct Hcases as [?|[r Hok]]; [done|congruence].
  - intros Hnot. by destruct Hcases.
Qed.

(** A slug that had to be cut has exactly 200 characters: when the
    original slug and a suffix of at most 200 characters together exceed
    256 characters, the loop body builds a slug of length 200. *)
Theorem truncated_slug_length base (next : N) :
  256 < len base + len (suffix next) ->
  len (suffix next) <= 200 ->
  len (suffixed base next) = 200.
Proof.
  intros Hlong Hend. unfold suffixed.
  rewrite decide_True by done.
  rewrite slice_to_nonneg, len_app, len_take by lia. lia.
Qed.

(** The loop never proposes a slug twice: the slugs built for any run of
    consecutive counters are pairwise distinct, cut or not. *)
Theorem loop_candidates_distinct base (from : N) (n : nat) :
  NoDup (suffixed base <$> counters from n).
Proof.
  apply NoDup_fmap_2; [apply suffixed_inj|].
  unfold counters. apply NoDup_fmap_2; [|apply NoDup_seq].
  intros i j Hij. lia.
Qed.

(** The lookup of [unique_slug] does not leave out the instance's own row.
    A stored instance whose slug is cleared and whose text still normalises
    to the slug of its row is therefore not given that slug back: it is
    saved under a suffixed slug. *)
Theorem cleared_slug_not_restored table e t (k : nat) (p : string) :
  pk e = Some k -> slug e = "" -> slug_txt e = Some t ->
  {| row_pk := k; row_slug := slugify t; row_payload := p |} ∈ table ->
  exists table' e' (next : N),
    save slugify table e = Ok (table', e')
    /\ (2 <= next)%N
    /\ slug e' = suffixed (slugify t) next
    /\ slug e' <> slugify t.
Proof.
  intros Hpk Hs Ht Hrow.
  assert (slugify t ∈ slugs table) as Hin.
  { apply list_elem_of_fmap. by eexists; split; [|exact Hrow]. }
  destruct (unique_slug_collision slugify table e t Hs Ht Hin)
    as (m & _ & _ & Hfree & Hu).
  rewrite (save_unfold slugify _ _ _ Hu).
  rewrite bool_decide_eq_false_2 by apply suffixed_nonempty.
  destruct (model_save_stored table
              (set_slug e (suffixed (slugify t) (2 + N.of_nat m))))
    as (_ & _ & _ & _ & _ & Hslug).
  eexists _, _, (2 + N.of_nat m)%N.
  split; [by rewrite <- surjective_pairing|].
  split; [lia|]. split; [exact Hslug|].
  rewrite Hslug. simpl. intros Heq. apply Hfree. by rewrite Heq.
Qed.

End SlugAssignment.


(** ** More on filter translation *)

Section FilterBranches.

Import Resources.
Local Arguments String.append !_ _ /.

Context {Geom Dist : Type}.
Variable super_build_filters :
  gmap string string -> outcome (gmap string (@OrmValue Geom Dist)).
Variable D : string -> N -> outcome Dist.
Variable boundaries : list (string * Geom).

Implicit Types (filters : gmap string string) (lat lon range unit : string).

Lemma split_nonempty (sep : ascii) (s : string) : split sep s <> [].
Proof.
  destruct s as [|c s]; simpl; [done|].
  case_decide; [done|]. by destruct (split sep s).
Qed.

Lemma join_split (sep : ascii) (s : string) :
  join (String sep "") (split sep s) = s.
Proof.
  induction s as [|c s IH]; simpl; [done|].
  pose proof (split_nonempty sep s) as Hne.
  case_decide as Hc.
  - subst. destruct (split sep s) as [|w ws] eqn:E; [done|].
    simpl in IH |- *. by rewrite IH.
  - destruct (split sep s) as [|w ws] eqn:E; [done|].
    simpl in IH |- *. destruct ws; simpl in *; by rewrite <- IH.
Qed.

Lemma length_split (sep : ascii) (s : string) :
  length (split sep s) = S (count_char sep s).
Proof.
  induction s as [|c s IH]; simpl; [done|].
  pose proof (split_nonempty sep s) as Hne.
  case_decide; simpl; [by rewrite IH|].
  destruct (split sep s); [done|]. simpl in *. lia.
Qed.

Lemma split_parts_no_sep (sep : ascii) (s : string) :
  Forall (fun w => all_chars (is_not sep) w = true) (split sep s).
Proof.
  induction s as [|c s IH]; simpl; [by repeat constructor|].
  case_decide as Hc; [by constructor|].
  assert (is_not sep c = true) as Hnot by by apply bool_decide_eq_true_2.
  destruct (split sep s) as [|w ws].
  - repeat constructor. simpl. by rewrite Hnot.
  - apply Forall_cons in IH as [Hw Hws]. constructor; [|done].
    simpl. by rewrite Hw, Hnot.
Qed.

Lemma bind_Ok_r {A} (m : outcome A) : Py.bind m Ok = m.
Proof. by destruct m. Qed.

(** Filters that name none of [sets], [contains], [near] and [intersects]
    are translated by the base class alone; so is the absent filter
    dictionary, read as the empty one. *)
Theorem no_geo_filters_inherited filters :
  filters !! "sets" = None -> filters !! "contains" = None ->
  filters !! "near" = None -> filters !! "intersects" = None ->
  build_filters super_build_filters D boundaries (Some filters) = super_build_filters filters
  /\ build_filters super_build_filters D boundaries None = super_build_filters ∅.
Proof.
  intros Hsets Hcontains Hnear Hinter.
  unfold Resources.build_filters. simpl.
  rewrite Hsets, Hcontains, Hnear, Hinter.
  split; by destruct (super_build_filters _).
Qed.

(** The [sets] filter becomes [set__slug__in] with the pieces of its value
    between the commas: joining them with commas gives the value back, there
    is one piece more than there are commas (so an empty value gives the
    single empty slug), and no piece contains a comma. *)
Theorem sets_filter_slugs filters (v : string) orm :
  super_build_filters filters = Ok orm ->
  filters !! "sets" = Some v -> filters !! "contains" = None ->
  filters !! "near" = None -> filters !! "intersects" = None ->
  exists pieces,
    build_filters super_build_filters D boundaries (Some filters)
    = Ok (<["set__slug__in" := SlugIn pieces]> orm)
    /\ join "," pieces = v
    /\ length pieces = S (count_char "," v)
    /\ Forall (fun w => all_chars (is_not ",") w = true) pieces.
Proof.
  intros Hsuper Hsets Hcontains Hnear Hinter.
  exists (split "," v).
  unfold Resources.build_filters. simpl.
  rewrite Hsuper, Hsets. simpl. rewrite Hcontains, Hnear, Hinter. simpl.
  split; [done|].
  auto using join_split, length_split, split_parts_no_sep.
Qed.

(** A [contains] filter [lat,lon] is translated without looking at what
    [lat] and [lon] are: whatever the two strings, the point stored under
    [shape__contains] is written with the second one first. *)
Theorem contains_filter_point filters lat lon orm :
  super_build_filters filters = Ok orm ->
  filters !! "contains" = Some (lat +:+ "," +:+ lon) ->
  filters !! "near" = None -> filters !! "intersects" = None ->
  all_chars (is_not ",") lat = true ->
  all_chars (is_not ",") lon = true ->
  exists orm',
    build_filters super_build_filters D boundaries (Some filters) = Ok orm'
    /\ orm' !! "shape__contains"
       = Some (Wkt ("POINT(" +:+ lon +:+ " " +:+ lat +:+ ")")).
Proof.
  intros Hsuper Hcontains Hnear Hinter Hlat Hlon.
  assert (split "," (lat +:+ "," +:+ lon) = [lat; lon]) as Hsplit.
  { change ("," +:+ lon) with (String "," lon).
    by rewrite split_app_sep, split_no_sep. }
  unfold Resources.build_filters. simpl. rewrite Hsuper. simpl.
  destruct (filters !! "sets"); simpl;
    rewrite Hcontains, Hsplit; simpl; rewrite Hnear, Hinter; simpl;
    (eexists; split; [done|apply lookup_insert_eq]).
Qed.

(** A [contains] value that does not have exactly one comma makes
    [build_filters] raise [ValueError], whatever the other filters are. *)
Theorem contains_malformed_raises filters (v : string) orm :
  super_build_filters filters = Ok orm ->
  filters !! "contains" = Some v ->
  count_char "," v <> 1 ->
  build_filters super_build_filters D boundaries (Some filters) = Raise ValueError.
Proof.
  intros Hsuper Hcontains Hcount.
  pose proof (length_split "," v) as Hlen.
  unfold Resources.build_filters. simpl. rewrite Hsuper. simpl.
  destruct (filters !! "sets"); simpl; rewrite Hcontains;
    destruct (split "," v) as [|a [|b [|c l]]]; simpl in *;
      try done; lia.
Qed.

(** A [near] value that does not have exactly two commas makes
    [build_filters] raise [ValueError], before its range is looked at. *)
Theorem near_wrong_arity_raises filters (v : string) orm :
  super_build_filters filters = Ok orm ->
  filters !! "contains" = None ->
  filters !! "near" = Some v ->
  count_char "," v <> 2 ->
  build_filters super_build_filters D boundaries (Some filters) = Raise ValueError.
Proof.
  intros Hsuper Hcontains Hnear Hcount.
  pose proof (length_split "," v) as Hlen.
  unfold Resources.build_filters. simpl. rewrite Hsuper. simpl.
  destruct (filters !! "sets"); simpl; rewrite Hcontains; simpl;
    rewrite Hnear;
    destruct (split "," v) as [|a [|b [|c [|c' l]]]]; simpl in *;
      try done; lia.
Qed.

Lemma leading_digits_all (s : string) :
  all_chars isdigit (leading_digits s) = true.
Proof.
  induction s as [|c s IH]; simpl; [done|].
  destruct (isdigit c) eqn:E; simpl; [by rewrite E|done].
Qed.

Lemma leading_digits_rest (s : string) :
  s = leading_digits s +:+ drop (len (leading_digits s)) s
  /\ not_headed_by isdigit (drop (len (leading_digits s)) s) = true.
Proof.
  induction s as [|c s [IH1 IH2]]; simpl; [done|].
  destruct (isdigit c) eqn:E; simpl; [|by rewrite E].
  split; [by rewrite <- IH1|done].
Qed.

Lemma int_digits_ok (ds : string) :
  all_chars isdigit ds = true ->
  forall acc, exists n, int_digits acc ds = Ok n.
Proof.
  induction ds as [|c ds IH]; simpl; [eauto|].
  intros [Hc Hds]%andb_prop acc. rewrite Hc. apply IH, Hds.
Qed.

(** When the range of a [near] filter begins with a digit, and with no
    more than 4300 of them, the match and [int] do not fail: the range is
    cut into its leading digits and a unit that does not begin with a
    digit, the digits are read as a number, and [build_filters] succeeds or
    raises as [D] does for that unit and number. *)
Theorem near_outcome_follows_measure filters lat lon range orm :
  super_build_filters filters = Ok orm ->
  filters !! "contains" = None -> filters !! "intersects" = None ->
  filters !! "near" = Some (lat +:+ "," +:+ lon +:+ "," +:+ range) ->
  all_chars (is_not ",") lat = true ->
  all_chars (is_not ",") lon = true ->
  all_chars (is_not ",") range = true ->
  not_headed_by isdigit range = false ->
  len (leading_digits range) <= 4300 ->
  exists (digits unit : string) (n : N),
    range = digits +:+ unit
    /\ all_chars isdigit digits = true
    /\ not_headed_by isdigit unit = true
    /\ int digits = Ok n
    /\ build_filters super_build_filters D boundaries (Some filters)
       = let! d := D unit n in
         Ok (<["shape__distance_lte" := WithinDistance (wkt_point lon lat) d]>
               match filters !! "sets" with
               | Some v => <["set__slug__in" := SlugIn (split "," v)]> orm
               | None => orm
               end).
Proof.
  intros Hsuper Hcontains Hinter Hnear Hlat Hlon Hrange Hhead _.
  destruct (leading_digits_rest range) as [Hcut Hunit].
  pose proof (leading_digits_all range) as Hdigits.
  assert (exists c ds, leading_digits range = String c ds)
    as (c & ds & Hlead).
  { destruct range as [|c r]; [done|]. simpl in *.
    destruct (isdigit c); [eauto|done]. }
  destruct (int_digits_ok _ Hdigits 0%N) as [n Hn].
  assert (int (leading_digits range) = Ok n) as Hint
    by (rewrite Hlead in *; exact Hn).
  assert (re_match_digits range = Some (leading_digits range)) as Hmatch
    by (unfold re_match_digits; by rewrite Hlead).
  exists (leading_digits range), (drop (len (leading_digits range)) range), n.
  do 4 (split; [done|]).
  unfold Resources.build_filters. simpl. rewrite Hsuper. simpl.
  destruct (filters !! "sets"); simpl;
    rewrite Hcontains; simpl; rewrite Hnear, split_near by done;
    rewrite Hmatch; simpl; rewrite Hint;
    simpl; destruct (D _ n); simpl; by rewrite ?Hinter.
Qed.

Lemma int_nonempty (s : string) : 1 <= len s -> int s = int_digits 0 s.
Proof. destruct s; simpl; [lia|done]. Qed.

Lemma int_digits_zeros (k : nat) (s : string) :
  int_digits 0 (Samples.replicate_char k "0" +:+ s) = int_digits 0 s.
Proof. induction k as [|k IH]; simpl; [done|]. exact IH. Qed.

Lemma all_digits_zeros (k : nat) :
  all_chars isdigit (Samples.replicate_char k "0") = true.
Proof. induction k as [|k IH]; simpl; [done|]. exact IH. Qed.

(** Zeros in front of the number of a [near] range do not change it, as
    long as zeros and number together have no more than 4300 digits: for
    the range [0...0<n><unit>] the measure is built from [unit] and [n]. *)
Theorem near_zero_padded filters lat lon (k : nat) (n : N) unit orm d :
  super_build_filters filters = Ok orm ->
  filters !! "contains" = None -> filters !! "intersects" = None ->
  filters !! "near"
    = Some (lat +:+ "," +:+ lon +:+ ","
            +:+ (Samples.replicate_char k "0" +:+ str_of_int n) +:+ unit) ->
  all_chars (is_not ",") lat = true ->
  all_chars (is_not ",") lon = true ->
  all_chars (is_not ",") unit = true ->
  not_headed_by isdigit unit = true ->
  k + len (str_of_int n) <= 4300 ->
  D unit n = Ok d ->
  exists orm',
    build_filters super_build_filters D boundaries (Some filters) = Ok orm'
    /\ orm' !! "shape__distance_lte"
       = Some (WithinDistance (wkt_point lon lat) d).
Proof.
  intros Hsuper Hcontains Hinter Hnear Hlat Hlon Hunit Hhead _ HD.
  set (digits := Samples.replicate_char k "0" +:+ str_of_int n) in *.
  assert (all_chars isdigit digits = true) as Hdigits.
  { unfold digits.
    by rewrite all_chars_app, all_digits_zeros, all_digits_str_of_int. }
  assert (all_chars (is_not ",") (digits +:+ unit) = true) as Hrange.
  { rewrite all_chars_app, Hunit, andb_true_r.
    by apply (all_chars_impl isdigit); [apply digit_is_not_comma|]. }
  pose proof (len_str_of_int_pos n) as Hpos.
  assert (1 <= len digits) as Hlen
    by (unfold digits; rewrite len_app; lia).
  assert (int digits = Ok n) as Hint.
  { rewrite int_nonempty by done. unfold digits.
    rewrite int_digits_zeros, <- int_nonempty by done.
    apply int_str_of_int. }
  assert (re_match_digits (digits +:+ unit) = Some digits) as Hmatch.
  { unfold re_match_digits. rewrite leading_digits_app by done.
    destruct digits; [simpl in Hlen; lia|done]. }
  unfold Resources.build_filters. simpl. rewrite Hsuper. simpl.
  destruct (filters !! "sets"); simpl;
    rewrite Hcontains; simpl; rewrite Hnear, split_near by done;
    rewrite Hmatch; simpl; rewrite drop_app, Hint; simpl;
    rewrite HD; simpl; rewrite Hinter;
    (eexists; split; [done|apply lookup_insert_eq]).
Qed.

Lemma filter_slug_absent (slug : string) (bs : list (string * Geom)) :
  slug ∉ bs.*1 -> filter (fun b => b.1 = slug) bs = [].
Proof.
  induction bs as [|[s g] bs IH]; [done|]. rewrite fmap_cons.
  intros [Hne Hout]%not_elem_of_cons. rewrite filter_cons. simpl in *.
  rewrite decide_False by done. by apply IH.
Qed.

Lemma filter_slug_unique (slug : string) (g : Geom)
    (bs : list (string * Geom)) :
  NoDup bs.*1 -> (slug, g) ∈ bs ->
  filter (fun b => b.1 = slug) bs = [(slug, g)].
Proof.
  induction bs as [|[s g'] bs IH]; [by intros _ ?%elem_of_nil|].
  rewrite fmap_cons. intros [Hout Hnd]%NoDup_cons Hin.
  rewrite filter_cons. simpl in *.
  apply elem_of_cons in Hin as [[= <- <-]|Hin].
  - rewrite decide_True by done. by rewrite filter_slug_absent.
  - rewrite decide_False; [by apply IH|].
    intros ->. apply Hout. apply list_elem_of_fmap.
    by exists (slug, g).
Qed.

(** The [intersects] filter looks its slug up among the stored boundaries:
    a slug that no boundary has makes [build_filters] raise [DoesNotExist],
    and, slugs being distinct, the full shape of the boundary with that slug
    is stored under [shape__intersects]. *)
Theorem intersects_filter_lookup filters (slug : string) orm :
  super_build_filters filters = Ok orm ->
  filters !! "contains" = None -> filters !! "near" = None ->
  filters !! "intersects" = Some slug ->
  (slug ∉ boundaries.*1 ->
   build_filters super_build_filters D boundaries (Some filters)
   = Raise DoesNotExist)
  /\ (forall g, NoDup boundaries.*1 -> (slug, g) ∈ boundaries ->
      exists orm',
        build_filters super_build_filters D boundaries (Some filters)
        = Ok orm'
        /\ orm' !! "shape__intersects" = Some (Shape g)).
Proof.
  intros Hsuper Hcontains Hnear Hinter. split.
  - intros Hout. unfold Resources.build_filters. simpl.
    rewrite Hsuper. simpl.
    destruct (filters !! "sets"); simpl;
      rewrite Hcontains, Hnear, Hinter; simpl;
      unfold objects_get_shape; by rewrite filter_slug_absent.
  - intros g Hnd Hin. unfold Resources.build_filters. simpl.
    rewrite Hsuper. simpl.
    destruct (filters !! "sets"); simpl;
      rewrite Hcontains, Hnear, Hinter; simpl;
      unfold objects_get_shape; rewrite (filter_slug_unique slug g) by done;
      simpl; (eexists; split; [done|apply lookup_insert_eq]).
Qed.

(** Whatever [build_filters] returns keeps the entries of the base class:
    outside the four keys [set__slug__in], [shape__contains],
    [shape__distance_lte] and [shape__intersects], the dictionary returned
    is the one the base class built. *)
Theorem build_filters_frame filters orm' :
  build_filters super_build_filters D boundaries (Some filters) = Ok orm' ->
  exists orm,
    super_build_filters filters = Ok orm
    /\ forall key : string,
         key ∉ ["set__slug__in"; "shape__contains";
                "shape__distance_lte"; "shape__intersects"] ->
         orm' !! key = orm !! key.
Proof.
  unfold Resources.build_filters. simpl.
  destruct (super_build_filters filters) as [orm| |]; [|done..].
  intros Hbuild. exists orm. split; [done|]. intros key Hkey.
  assert (key <> "set__slug__in" /\ key <> "shape__contains"
          /\ key <> "shape__distance_lte" /\ key <> "shape__intersects")
    as (H1 & H2 & H3 & H4).
  { repeat split; intros ->; apply Hkey; set_solver. }
  unfold Py.bind, group1 in Hbuild.
  repeat (case_match; simplify_eq/=);
    by rewrite ?lookup_insert_ne by done.
Qed.

End FilterBranches.


(** ** More on response shaping *)

Section ShapingEdges.

Import Resources.

Context {V : Type}.

Implicit Types (request : Request) (obj bundle : Bundle V)
  (objs : list (Bundle V)) (key : string).

Lemma del_data_absent key obj :
  has_key key obj = false -> del_data key obj = Raise (KeyError key).
Proof. unfold has_key, del_data, del. by destruct (data obj !! key). Qed.

Lemma has_key_delete_ne key key' obj :
  key <> key' ->
  has_key key' {| data := delete key (data obj) |} = has_key key' obj.
Proof. intros Hne. unfold has_key. simpl. by rewrite lookup_delete_ne. Qed.

(** The detail hook, case by case. *)
Lemma alter_detail_cases request bundle :
  alter_detail_data_to_serialize request bundle
  = let shape_type := GET_get request "shape_type" "simple" in
    if bool_decide (shape_type <> "simple")
       && negb (has_key "simple_shape" bundle)
    then Raise (KeyError "simple_shape")
    else if bool_decide (shape_type <> "full")
            && negb (has_key "shape" bundle)
    then Raise (KeyError "shape")
    else Ok (trimmed shape_type bundle).
Proof.
  unfold alter_detail_data_to_serialize, trimmed. simpl.
  generalize (GET_get request "shape_type" "simple"). intros shape_type.
  destruct (decide (shape_type = "simple")) as [->|Hs].
  - rewrite (bool_decide_eq_false_2 ("simple" <> "simple")) by (by intros ?).
    rewrite (bool_decide_eq_true_2 ("simple" <> "full")) by done. simpl.
    destruct (has_key "shape" bundle) eqn:E; simpl.
    + by rewrite del_data_present.
    + by rewrite del_data_absent.
  - rewrite (bool_decide_eq_true_2 (shape_type <> "simple")) by done. simpl.
    destruct (has_key "simple_shape" bundle) eqn:E; simpl;
      [|by rewrite del_data_absent].
    rewrite del_data_present by done. simpl.
    destruct (decide (shape_type = "full")) as [->|Hf].
    + by rewrite bool_decide_eq_false_2 by (by intros ?).
    + rewrite bool_decide_eq_true_2 by done. simpl.
      destruct (has_key "shape" bundle) eqn:E'; simpl.
      * rewrite del_data_present; [done|].
        by rewrite has_key_delete_ne.
      * rewrite del_data_absent; [done|].
        by rewrite has_key_delete_ne.
Qed.

(** A bundle without a geometry field that the hook is to delete makes the
    detail hook raise [KeyError] for that field: [simple_shape] whenever
    [shape_type] is not ["simple"], and [shape] whenever [shape_type] is not
    ["full"] and the deletion of [simple_shape], if any, went through. *)
Theorem detail_missing_field_raises request bundle :
  let shape_type := GET_get request "shape_type" "simple" in
  (shape_type <> "simple" -> has_key "simple_shape" bundle = false ->
   alter_detail_data_to_serialize request bundle
   = Raise (KeyError "simple_shape"))
  /\ (shape_type <> "full" -> has_key "shape" bundle = false ->
      shape_type = "simple" \/ has_key "simple_shape" bundle = true ->
      alter_detail_data_to_serialize request bundle
      = Raise (KeyError "shape")).
Proof.
  rewrite alter_detail_cases. cbv zeta.
  generalize (GET_get request "shape_type" "simple"). intros shape_type.
  split.
  - intros Hs Hmissing. by rewrite bool_decide_eq_true_2, Hmissing.
  - intros Hf Hmissing Hfirst.
    rewrite (bool_decide_eq_true_2 (shape_type <> "full")), Hmissing by done.
    destruct Hfirst as [->| ->]; [|by rewrite andb_false_r].
    by rewrite bool_decide_eq_false_2 by (by intros ?).
Qed.

(** The detail hook cannot be applied twice: on a bundle that it has
    returned, the same request makes it raise [KeyError]. *)
Theorem detail_hook_not_repeatable request bundle bundle' :
  alter_detail_data_to_serialize request bundle = Ok bundle' ->
  exists key,
    alter_detail_data_to_serialize request bundle' = Raise (KeyError key).
Proof.
  rewrite !alter_detail_cases. cbv zeta.
  generalize (GET_get request "shape_type" "simple").
  intros shape_type Hok.
  assert (bundle' = trimmed shape_type bundle) as ->
    by (revert Hok; repeat case_match; congruence).
  clear Hok.
  destruct (decide (shape_type = "simple")) as [Hs|Hs].
  - exists "shape".
    rewrite (bool_decide_eq_false_2 (shape_type <> "simple"))
      by (by intros ?).
    rewrite (bool_decide_eq_true_2 (shape_type <> "full"))
      by (rewrite Hs; done).
    simpl. unfold has_key.
    by rewrite trimmed_shape by (rewrite Hs; done).
  - exists "simple_shape".
    rewrite (bool_decide_eq_true_2 (shape_type <> "simple")) by done.
    simpl. unfold has_key. by rewrite trimmed_simple_shape.
Qed.

Lemma for_each_inv {A B} (f : A -> outcome B) (xs : list A) (ys : list B) :
  for_each f xs = Ok ys -> Forall2 (fun x y => f x = Ok y) xs ys.
Proof.
  revert ys. induction xs as [|x xs IH]; intros ys; simpl.
  - intros [= <-]. constructor.
  - destruct (f x) as [y| |] eqn:Hx; simpl; [|done..].
    destruct (for_each f xs) as [ys'| |]; simpl; [|done..].
    intros [= <-]. constructor; [done|]. by apply IH.
Qed.

Lemma trimmed_subseteq (shape_type : string) obj :
  data (trimmed shape_type obj) ⊆ data obj.
Proof.
  unfold trimmed. simpl.
  repeat case_decide; try done;
    repeat (etrans; [apply delete_subseteq|]); done.
Qed.

Lemma drop_keys_subseteq (keys : list string) obj :
  data (drop_keys keys obj) ⊆ data obj.
Proof.
  apply map_subseteq_spec. intros key v.
  rewrite lookup_drop_keys. by case_decide.
Qed.

Lemma alter_detail_subseteq request bundle bundle' :
  alter_detail_data_to_serialize request bundle = Ok bundle' ->
  data bundle' ⊆ data bundle.
Proof.
  rewrite alter_detail_cases. cbv zeta.
  repeat case_match; try done. intros [= <-]. apply trimmed_subseteq.
Qed.

(** The list hook behind its first loop: the detail hook on every bundle,
    then the exclusion of the named fields. *)
Lemma alter_list_steps request (data_ : ListData V) :
  alter_list_data_to_serialize request data_
  = let! objs := for_each (alter_detail_data_to_serialize request)
                   (objects data_) in
    Ok {| meta := meta data_;
          objects := drop_keys (excludes_of request) <$> objs |}.
Proof.
  unfold alter_list_data_to_serialize.
  change (for_each _ (objects data_))
    with (for_each (alter_detail_data_to_serialize request) (objects data_)).
  destruct (for_each _ (objects data_)) as [objs| |]; simpl; [|done..].
  fold (excludes_of request).
  destruct (excludes_of request) as [|k ks].
  - pose proof (exclusion_loops [] objs) as Hnil.
    injection Hnil as Hnil. simpl. by rewrite <- Hnil.
  - by rewrite exclusion_loops.
Qed.

(** The hooks only delete.  Whatever the list hook returns has the same
    [meta], and as many bundles in the same order, each holding a part of
    the fields it came with, values unchanged; likewise for the bundle the
    detail hook returns. *)
Theorem hooks_only_delete request :
  (forall data_ data' : ListData V,
     alter_list_data_to_serialize request data_ = Ok data' ->
     meta data' = meta data_
     /\ Forall2 (fun obj obj' => data obj' ⊆ data obj)
          (objects data_) (objects data'))
  /\ (forall bundle bundle',
        alter_detail_data_to_serialize request bundle = Ok bundle' ->
        data bundle' ⊆ data bundle).
Proof.
  split; [|apply alter_detail_subseteq].
  intros data_ data'. rewrite alter_list_steps.
  destruct (for_each _ (objects data_)) as [objs| |] eqn:Heach; [|done..].
  simpl. intros [= <-]. split; [done|]. simpl.
  apply for_each_inv in Heach. apply Forall2_fmap_r.
  eapply Forall2_impl; [exact Heach|].
  intros obj obj' Hobj. simpl. etrans; [apply drop_keys_subseteq|].
  exact (alter_detail_subseteq _ _ _ Hobj).
Qed.

Lemma drop_blank_key obj :
  data obj !! "" = None -> drop_keys [""] obj = obj.
Proof.
  intros Hnone. unfold drop_keys. simpl.
  rewrite delete_id by done. by destruct obj.
Qed.

(** Without an [excludes] parameter, or with a blank one, the list hook is
    the detail hook applied to each bundle in turn, errors included,
    provided no bundle has a field with the empty name. *)
Theorem list_hook_is_detail_hook_each request (data_ : ListData V) :
  strip (GET_get request "excludes" "") = "" ->
  Forall (fun obj => data obj !! "" = None) (objects data_) ->
  alter_list_data_to_serialize request data_
  = let! objs := for_each (alter_detail_data_to_serialize request)
                   (objects data_) in
    Ok {| meta := meta data_; objects := objs |}.
Proof.
  intros Hblank Hnames. rewrite alter_list_steps.
  destruct (for_each _ (objects data_)) as [objs| |] eqn:Heach; [|done..].
  simpl. do 2 f_equal.
  unfold excludes_of. rewrite Hblank. simpl.
  apply for_each_inv in Heach.
  induction Heach as [|obj obj' objs0 objs Hobj _ IH]; [done|].
  apply Forall_cons in Hnames as [Hname Hnames].
  rewrite fmap_cons, IH by done. f_equal.
  apply drop_blank_key.
  apply alter_detail_subseteq in Hobj.
  by eapply lookup_weaken_None.
Qed.

(** The list hook is all or nothing: if the detail hook raises for one of
    the bundles, the list hook raises [KeyError] and returns no list. *)
Theorem list_hook_all_or_nothing request (data_ : ListData V) obj e :
  obj ∈ objects data_ ->
  alter_detail_data_to_serialize request obj = Raise e ->
  exists key, alter_list_data_to_serialize request data_ = Raise (KeyError key).
Proof.
  intros Hobj Hraise. rewrite alter_list_steps.
  enough (exists key,
            for_each (alter_detail_data_to_serialize request) (objects data_)
            = Raise (KeyError key)) as [key ->] by eauto.
  induction (objects data_) as [|o objs IH]; [by apply elem_of_nil in Hobj|].
  simpl. rewrite (alter_detail_cases request o). simpl.
  repeat case_match; simpl; eauto.
  apply elem_of_cons in Hobj as [->|Hobj].
  - rewrite alter_detail_cases in Hraise. simpl in Hraise.
    repeat case_match; simplify_eq.
  - destruct (IH Hobj) as [key ->]. eauto.
Qed.

End ShapingEdges.


(** ** URL patterns *)

Section UrlPatterns.

Import Urls.
Local Arguments String.append !_ _ /.

Lemma take_app_len (w s : string) : take (len (w +:+ s) - len s) (w +:+ s) = w.
Proof.
  rewrite len_app. replace (len w + len s - len s) with (len w) by lia.
  induction w as [|c w IH]; simpl; [by destruct s|by rewrite IH].
Qed.

Lemma take_len_all (s : string) : take (len s - len "") s = s.
Proof.
  simpl. rewrite Nat.sub_0_r. induction s as [|c s IH]; simpl; [done|].
  by rewrite IH.
Qed.

Lemma class_plus_headed {R} (p : ascii -> bool) (s : string)
    (k : string -> option R) :
  not_headed_by p s = true -> class_plus p s k = None.
Proof. destruct s as [|c s]; simpl; [done|]. by destruct (p c). Qed.

(** A repeated class followed by something that is not in the class takes
    all of the run in front of it. *)
Lemma class_plus_run {R} (p : ascii -> bool) (w s : string)
    (k : string -> option R) (r : R) :
  w <> "" -> all_chars p w = true -> not_headed_by p s = true ->
  k s = Some r -> class_plus p (w +:+ s) k = Some r.
Proof.
  intros Hne Hw Hs Hk. induction w as [|c w IH]; [done|].
  simpl in *. apply andb_prop in Hw as [-> Hw].
  destruct w as [|c' w].
  - simpl. by rewrite class_plus_headed.
  - by rewrite IH.
Qed.

Lemma class_plus_inv {R} (p : ascii -> bool) (s : string)
    (k : string -> option R) (r : R) :
  class_plus p s k = Some r ->
  exists w s', w <> "" /\ all_chars p w = true /\ s = w +:+ s'
               /\ k s' = Some r.
Proof.
  induction s as [|c s IH]; simpl; [done|].
  destruct (p c) eqn:Hc; [|done].
  destruct (class_plus p s k) as [r'|] eqn:Hrest.
  - intros [= ->]. destruct (IH eq_refl) as (w & s' & _ & Hw & -> & Hk).
    exists (String c w), s'. simpl. by rewrite Hc, Hw.
  - intros Hk. exists (String c ""), s. simpl. by rewrite Hc.
Qed.

Lemma exec_named_run (name : string) (p : ascii -> bool) (w s : string)
    (groups : gmap string string) k r :
  w <> "" -> all_chars p w = true -> not_headed_by p s = true ->
  k s (<[name := w]> groups) = Some r ->
  exec (Named name (ClassPlus p)) (w +:+ s) groups k = Some r.
Proof.
  intros Hne Hw Hs Hk. cbn [exec].
  apply class_plus_run; [done..|]. by rewrite take_app_len.
Qed.

(** Every successful match is one of the matches the pattern describes. *)
Lemma exec_matched (r : regex) :
  forall s groups k res,
    exec r s groups k = Some res ->
    exists s' groups', matched r s s' groups groups'
                       /\ k s' groups' = Some res.
Proof.
  induction r as [|c| |p|name r IH|r1 IH1 r2 IH2|];
    intros s groups k res Hexec; cbn [exec matched] in *.
  - by exists s, groups.
  - destruct s as [|c' s]; [done|]. case_decide; [subst|done].
    by exists s, groups.
  - destruct s as [|c' s]; [done|]. case_decide; [done|].
    exists s, groups. split; [|done]. split; [|done]. by exists c'.
  - apply class_plus_inv in Hexec as (w & s' & Hne & Hw & -> & Hk).
    exists s', groups. split; [|done]. split; [|done]. by exists w.
  - apply IH in Hexec as (s' & groups1 & Hm & Hk).
    exists s', (<[name := take (len s - len s') s]> groups1).
    split; [|done]. by exists groups1.
  - apply IH1 in Hexec as (s1 & groups1 & Hm1 & Hexec).
    apply IH2 in Hexec as (s' & groups' & Hm2 & Hk).
    exists s', groups'. split; [|done]. by exists s1, groups1.
  - case_bool_decide; [|done]. by exists s, groups.
Qed.

Lemma matched_lits (w s s' : string) (groups groups' : gmap string string) :
  matched (lits w) s s' groups groups' -> s = w +:+ s' /\ groups' = groups.
Proof.
  revert s groups. induction w as [|c w IH]; intros s groups; simpl.
  - by intros [-> ->].
  - intros (s1 & groups1 & [-> ->] & Hrest).
    apply IH in Hrest as [-> ->]. done.
Qed.

Lemma slug_char_not_slash : slug_char "/" = false.
Proof. reflexivity. Qed.

Lemma slug_char_not_newline : slug_char newline = false.
Proof. reflexivity. Qed.

(** The keyword arguments built from the four named groups. *)
Lemma redirect_kwargs_4 (a b c d : string) :
  (<["external_id" := d]> (<["slug" := c]> (<["resource_name" := b]>
     (<["api_name" := a]> (∅ : gmap string string))))) !! "slug" = Some c.
Proof. by rewrite lookup_insert_ne, lookup_insert_eq. Qed.

(** A path [1?0/boundary-set/<slug>/<external_id>], where [?] is any one
    character but a newline and the last two parts are non-empty runs of
    word characters, dots and dashes, goes to the redirect view with the
    four parts as keyword arguments.  The dot of the pattern is not
    escaped, so [1.0] is only one of the versions that match. *)
Theorem redirect_route_taken (v : ascii) (slug external_id : string) :
  v <> newline ->
  slug <> "" -> all_chars slug_char slug = true ->
  external_id <> "" -> all_chars slug_char external_id = true ->
  resolve (String "1" (String v "0") +:+ "/boundary-set/"
           +:+ slug +:+ "/" +:+ external_id)
  = ExternalIdRedirects
      (<["external_id" := external_id]>
         (<["slug" := slug]>
            (<["resource_name" := "boundary-set"]>
               (<["api_name" := String "1" (String v "0")]> ∅)))).
Proof.
  intros Hv Hs1 Hs2 He1 He2.
  unfold resolve, search_from_start, redirect_pattern.
  cbn [exec lits String.append].
  rewrite (decide_False (P := v = newline)) by done.
  repeat rewrite decide_True by done.
  erewrite (class_plus_run slug_char slug (String "/" external_id));
    [reflexivity|done|done|done|].
  cbv beta. cbn [exec].
  rewrite decide_True by done.
  rewrite <- (app_empty_r external_id) at 1.
  erewrite (class_plus_run slug_char external_id "");
    [reflexivity|done|done|done|].
  cbv beta.
  rewrite bool_decide_eq_true_2 by (by left).
  do 2 f_equal; [|f_equal; [|f_equal; [|f_equal]]].
  - apply take_len_all.
  - exact (take_app_len slug (String "/" external_id)).
  - exact (take_app_len "boundary-set"
             (String "/" (slug +:+ String "/" external_id))).
  - exact (take_app_len (String "1" (String v "0"))
             ("/boundary-set/" +:+ slug +:+ String "/" external_id)).
Qed.

(** What a path that the redirect pattern matches looks like. *)
Lemma redirect_match_inv (path : string) (kwargs : gmap string string) :
  search_from_start redirect_pattern path = Some kwargs ->
  exists (v : ascii) (slug external_id tail : string),
    path = String "1" (String v "0") +:+ "/boundary-set/"
           +:+ slug +:+ "/" +:+ external_id +:+ tail
    /\ (tail = "" \/ tail = String newline "")
    /\ v <> newline
    /\ slug <> "" /\ all_chars slug_char slug = true
    /\ external_id <> "" /\ all_chars slug_char external_id = true
    /\ kwargs
       = <["external_id" := external_id]>
           (<["slug" := slug]>
              (<["resource_name" := "boundary-set"]>
                 (<["api_name" := String "1" (String v "0")]> ∅))).
Proof.
  unfold search_from_start. intros Hexec.
  apply exec_matched in Hexec as (s' & groups' & Hm & [= <-]).
  unfold redirect_pattern in Hm. cbn [matched] in Hm.
  destruct Hm as (s1 & g1 & Hapi & s2 & g2 & [Hs1 Hg2] & s3 & g3
                  & Hname & s4 & g4 & [Hs3 Hg4] & s5 & g5 & Hslug
                  & s6 & g6 & [Hs5 Hg6] & s7 & g7 & Hext
                  & Htail & Hs' & Hg').
  destruct Hapi as (ga & (sa & gb & [Hpath Hgb] & sb & gc
                          & [(v & Hv & Hsa) Hgc] & Hsb & Hga) & Hg1).
  destruct Hname as (gd & [Hs2 Hgd]%matched_lits & Hg3).
  destruct Hslug as (ge & [(slug & Hslug1 & Hslug2 & Hs4) Hge] & Hg5).
  destruct Hext as (gf & [(ext & Hext1 & Hext2 & Hs6) Hgf] & Hg7).
  exists v, slug, ext, s7. subst.
  split; [reflexivity|]. do 6 (split; [done|]).
  f_equal; [|f_equal; [|f_equal; [|f_equal]]].
  - exact (take_app_len ext s7).
  - exact (take_app_len slug (String "/" (ext +:+ s7))).
  - exact (take_app_len "boundary-set"
             (String "/" (slug +:+ String "/" (ext +:+ s7)))).
  - exact (take_app_len (String "1" (String v "0"))
             ("/boundary-set/" +:+ slug +:+ String "/" (ext +:+ s7))).
Qed.

(** Only such paths reach the redirect view.  If a path without a newline
    is sent to [external_id_redirects], it is
    [1?0/boundary-set/<slug>/<external_id>] with [?] a single character and
    the last two parts non-empty runs of word characters, dots and dashes
    (so neither holds a slash), and the keyword arguments are those four
    parts. *)
Theorem redirect_route_shape (path : string) (kwargs : gmap string string) :
  all_chars (is_not newline) path = true ->
  resolve path = ExternalIdRedirects kwargs ->
  exists (v : ascii) (slug external_id : string),
    path = String "1" (String v "0") +:+ "/boundary-set/"
           +:+ slug +:+ "/" +:+ external_id
    /\ slug <> "" /\ all_chars slug_char slug = true
    /\ external_id <> "" /\ all_chars slug_char external_id = true
    /\ kwargs
       = <["external_id" := external_id]>
           (<["slug" := slug]>
              (<["resource_name" := "boundary-set"]>
                 (<["api_name" := String "1" (String v "0")]> ∅))).
Proof.
  intros Hline. unfold resolve.
  destruct (search_from_start redirect_pattern path) as [kw|] eqn:Hm;
    [|done].
  intros [= ->].
  apply redirect_match_inv in Hm
    as (v & slug & ext & tail & -> & Htail & Hv & Hs1 & Hs2 & He1 & He2 & ->).
  exists v, slug, ext. destruct Htail as [->| ->].
  - by rewrite app_empty_r.
  - exfalso. rewrite !all_chars_app, !andb_true_iff in Hline.
    destruct Hline as (_ & _ & _ & _ & _ & Hnl). by vm_compute in Hnl.
Qed.

Lemma last_char_eq (a b : string) (c d : ascii) :
  a +:+ String c "" = b +:+ String d "" -> c = d.
Proof.
  revert b. induction a as [|x a IH]; intros [|y b]; simpl; intros Heq.
  - by injection Heq.
  - injection Heq as _ Heq. by destruct b.
  - injection Heq as _ Heq. by destruct a.
  - injection Heq as _ Heq. by apply (IH b).
Qed.

Lemma last_char_of (p : ascii -> bool) (w : string) :
  w <> "" -> all_chars p w = true ->
  exists w' c, w = w' +:+ String c "" /\ p c = true.
Proof.
  induction w as [|x w IH]; [done|]. intros _ [Hx Hw]%andb_prop.
  destruct w as [|y w].
  - by exists "", x.
  - destruct (IH ltac:(done) Hw) as (w' & c & -> & Hc).
    by exists (String x w'), c.
Qed.

(** A path that ends in a slash never reaches the redirect view; it is
    passed on to the URLs of the API. *)
Theorem trailing_slash_to_api (path : string) :
  resolve (path +:+ "/") = ApiUrls (path +:+ "/").
Proof.
  unfold resolve.
  destruct (search_from_start redirect_pattern (path +:+ "/"))
    as [kw|] eqn:Hm; [exfalso|done].
  apply redirect_match_inv in Hm
    as (v & slug & ext & tail & Hpath & Htail & _ & _ & _ & He1 & He2 & _).
  destruct (last_char_of slug_char ext He1 He2) as (w' & c & -> & Hc).
  destruct Htail as [->| ->].
  - rewrite app_empty_r in Hpath.
    rewrite <- !app_assoc_str in Hpath.
    apply last_char_eq in Hpath. subst c. done.
  - change (String newline "") with ("" +:+ String newline "") in Hpath.
    rewrite <- !app_assoc_str in Hpath.
    apply last_char_eq in Hpath. done.
Qed.

End UrlPatterns.


(** ** The further properties at sample data *)

Section MoreInstances.

Import Models Resources Urls Samples.

Lemma unique_slug_least_counter_witness :
  exists next : N,
    (2 <= next)%N
    /\ unique_slug slugify_plain austin_table (fresh "austin")
       = Ok (set_slug (fresh "austin") (suffixed "austin" next))
    /\ (suffixed "austin" next ∉ slugs austin_table)
    /\ forall j : N, (2 <= j < next)%N ->
         suffixed "austin" j ∈ slugs austin_table.
Proof.
  apply (unique_slug_least_counter slugify_plain austin_table
           (fresh "austin") "austin").
  - reflexivity.
  - reflexivity.
  - apply list_elem_of_here.
Defined.

Lemma save_all_keeps_slugs_distinct_witness :
  NoDup (slugs
           [{| row_pk := 1; row_slug := "austin"; row_payload := "" |};
            {| row_pk := 2; row_slug := "ward-5"; row_payload := "" |};
            {| row_pk := 3; row_slug := "austin-2"; row_payload := "" |}]).
Proof.
  eapply (save_all_keeps_slugs_distinct slugify_plain
            [fresh "austin"; fresh "ward-5"; fresh "austin"] []).
  - constructor.
  - repeat constructor.
  - reflexivity.
Defined.

Lemma preset_slug_not_checked_witness :
  exists table' e',
    save slugify_plain austin_table (preset "austin") = Ok (table', e')
    /\ slugs table' = ["austin"; "austin"]
    /\ ~ NoDup (slugs table').
Proof.
  apply (preset_slug_not_checked slugify_plain austin_table
           (preset "austin")).
  - discriminate.
  - reflexivity.
  - apply list_elem_of_here.
Defined.

Lemma truncated_slug_length_witness : len (suffixed long_slug 2) = 200.
Proof.
  apply (truncated_slug_length long_slug 2); vm_compute; lia.
Defined.

Lemma cleared_slug_not_restored_witness :
  exists table' e' (next : N),
    save slugify_plain austin_table austin_cleared = Ok (table', e')
    /\ (2 <= next)%N
    /\ slug e' = suffixed "austin" next
    /\ slug e' <> "austin".
Proof.
  apply (cleared_slug_not_restored slugify_plain austin_table
           austin_cleared "austin" 1 "").
  - reflexivity.
  - reflexivity.
  - reflexivity.
  - apply list_elem_of_here.
Defined.

Lemma no_geo_filters_inherited_witness :
  build_filters no_field_filters measure stored_boundaries
    (Some {[ "external_id" := "17031" ]})
  = no_field_filters {[ "external_id" := "17031" ]}
  /\ build_filters no_field_filters measure stored_boundaries None
     = no_field_filters ∅.
Proof.
  apply (no_geo_filters_inherited no_field_filters measure
           stored_boundaries {[ "external_id" := "17031" ]});
    reflexivity.
Defined.

Lemma sets_filter_slugs_witness :
  exists pieces,
    build_filters no_field_filters measure stored_boundaries
      (Some {[ "sets" := "wards,community-areas" ]})
    = Ok (<["set__slug__in" := SlugIn pieces]> ∅)
    /\ join "," pieces = "wards,community-areas"
    /\ length pieces = 2
    /\ Forall (fun w => all_chars (is_not ",") w = true) pieces.
Proof.
  apply (sets_filter_slugs no_field_filters measure stored_boundaries
           {[ "sets" := "wards,community-areas" ]}
           "wards,community-areas" ∅);
    reflexivity.
Defined.

Lemma contains_filter_point_witness :
  exists orm',
    build_filters no_field_filters measure stored_boundaries
      (Some {[ "contains" := "41.88,-87.63" ]})
    = Ok orm'
    /\ orm' !! "shape__contains" = Some (Wkt "POINT(-87.63 41.88)").
Proof.
  apply (contains_filter_point no_field_filters measure stored_boundaries
           {[ "contains" := "41.88,-87.63" ]} "41.88" "-87.63" ∅);
    reflexivity.
Defined.

Lemma contains_malformed_raises_witness :
  build_filters no_field_filters measure stored_boundaries
    (Some {[ "contains" := "41.88" ]})
  = Raise ValueError.
Proof.
  apply (contains_malformed_raises no_field_filters measure
           stored_boundaries {[ "contains" := "41.88" ]} "41.88" ∅);
    [reflexivity|reflexivity|vm_compute; lia].
Defined.

Lemma near_wrong_arity_raises_witness :
  build_filters no_field_filters measure stored_boundaries
    (Some {[ "near" := "41.88,-87.63" ]})
  = Raise ValueError.
Proof.
  apply (near_wrong_arity_raises no_field_filters measure
           stored_boundaries {[ "near" := "41.88,-87.63" ]}
           "41.88,-87.63" ∅);
    [reflexivity|reflexivity|reflexivity|vm_compute; lia].
Defined.

Lemma near_outcome_follows_measure_witness :
  exists (digits unit : string) (n : N),
    "2.5mi" = digits +:+ unit
    /\ all_chars isdigit digits = true
    /\ not_headed_by isdigit unit = true
    /\ int digits = Ok n
    /\ build_filters no_field_filters measure stored_boundaries
         (Some {[ "near" := "41.88,-87.63,2.5mi" ]})
       = let! d := measure unit n in
         Ok (<["shape__distance_lte"
               := WithinDistance (wkt_point "-87.63" "41.88") d]> ∅).
Proof.
  exact (near_outcome_follows_measure no_field_filters measure
           stored_boundaries {[ "near" := "41.88,-87.63,2.5mi" ]}
           "41.88" "-87.63" "2.5mi" ∅
           eq_refl eq_refl eq_refl eq_refl eq_refl eq_refl eq_refl eq_refl
           ltac:(vm_compute; lia)).
Defined.

Lemma near_zero_padded_witness :
  exists orm',
    build_filters no_field_filters measure stored_boundaries
      (Some {[ "near" := "41.88,-87.63,007km" ]})
    = Ok orm'
    /\ orm' !! "shape__distance_lte"
       = Some (WithinDistance "POINT(-87.63 41.88)" ("km", 7%N)).
Proof.
  apply (near_zero_padded no_field_filters measure stored_boundaries
           {[ "near" := "41.88,-87.63,007km" ]} "41.88" "-87.63"
           2 7 "km" ∅);
    try reflexivity.
  vm_compute. lia.
Defined.

Lemma intersects_filter_lookup_witness :
  build_filters no_field_filters measure stored_boundaries
    (Some {[ "intersects" := "ward-6" ]})
  = Raise DoesNotExist
  /\ exists orm',
       build_filters no_field_filters measure stored_boundaries
         (Some {[ "intersects" := "ward-5" ]})
       = Ok orm'
       /\ orm' !! "shape__intersects" = Some (Shape "MULTIPOLYGON(ward 5)").
Proof.
  split.
  - apply (intersects_filter_lookup no_field_filters measure
             stored_boundaries {[ "intersects" := "ward-6" ]} "ward-6" ∅);
      [reflexivity..|].
    compute_done.
  - apply (intersects_filter_lookup no_field_filters measure
             stored_boundaries {[ "intersects" := "ward-5" ]} "ward-5" ∅);
      [reflexivity..| |].
    + compute_done.
    + apply list_elem_of_further, list_elem_of_here.
Defined.

Lemma build_filters_frame_witness :
  exists orm,
    no_field_filters {[ "sets" := "wards" ]} = Ok orm
    /\ forall key : string,
         key ∉ ["set__slug__in"; "shape__contains";
                "shape__distance_lte"; "shape__intersects"] ->
         (<["set__slug__in" := SlugIn ["wards"]]> ∅
            : gmap string (@OrmValue string (string * N))) !! key
         = orm !! key.
Proof.
  apply (build_filters_frame no_field_filters measure stored_boundaries
           {[ "sets" := "wards" ]}).
  reflexivity.
Defined.

Lemma detail_hook_not_repeatable_witness :
  exists key,
    alter_detail_data_to_serialize (query [])
      (trimmed "simple" ward)
    = Raise (KeyError key).
Proof.
  apply (detail_hook_not_repeatable (query []) ward (trimmed "simple" ward)).
  reflexivity.
Defined.

Lemma list_hook_is_detail_hook_each_witness :
  alter_list_data_to_serialize (query [("shape_type", "full")]) ward_list
  = let! objs := for_each
                   (alter_detail_data_to_serialize
                      (query [("shape_type", "full")]))
                   (objects ward_list) in
    Ok {| meta := meta ward_list; objects := objs |}.
Proof.
  apply (list_hook_is_detail_hook_each (query [("shape_type", "full")])
           ward_list).
  - reflexivity.
  - repeat constructor.
Defined.

Lemma list_hook_all_or_nothing_witness :
  exists key,
    alter_list_data_to_serialize (query [])
      {| meta := ∅; objects := [ward; ward_without_shape] |}
    = Raise (KeyError key).
Proof.
  apply (list_hook_all_or_nothing (query [])
           {| meta := ∅; objects := [ward; ward_without_shape] |}
           ward_without_shape (KeyError "shape")).
  - apply list_elem_of_further, list_elem_of_here.
  - reflexivity.
Defined.

Lemma redirect_route_taken_witness :
  resolve "1x0/boundary-set/wards/5"
  = ExternalIdRedirects
      (<["external_id" := "5"]>
         (<["slug" := "wards"]>
            (<["resource_name" := "boundary-set"]>
               (<["api_name" := "1x0"]> ∅)))).
Proof.
  apply (redirect_route_taken "x" "wards" "5"); try discriminate;
    reflexivity.
Defined.

Lemma redirect_route_shape_witness :
  exists (v : ascii) (slug external_id : string),
    "1.0/boundary-set/community-areas/17031"
    = String "1" (String v "0") +:+ "/boundary-set/"
      +:+ slug +:+ "/" +:+ external_id
    /\ slug <> "" /\ all_chars slug_char slug = true
    /\ external_id <> "" /\ all_chars slug_char external_id = true.
Proof.
  destruct (redirect_route_shape "1.0/boundary-set/community-areas/17031"
              (<["external_id" := "17031"]>
                 (<["slug" := "community-areas"]>
                    (<["resource_name" := "boundary-set"]>
                       (<["api_name" := "1.0"]> ∅)))))
    as (v & slug & ext & Hpath & Hs1 & Hs2 & He1 & He2 & _).
  - reflexivity.
  - vm_compute. reflexivity.
  - exists v, slug, ext. repeat split; assumption.
Defined.

End MoreInstances.
